(** * TorchLayer: exposing Keras variables to torch.nn.Module

    A shallow embedding of [keras/src/backend/torch/layer.py] and the
    properties of its parameter-tracking protocol.

    Python objects live in a store and are named by their identity, so that
    "the same object" is equality of identities.  Methods are computations in
    a small state-and-exception monad over that store. *)

From Stdlib Require Import ZArith Lia DecimalString.
From stdpp Require Import base option list gmap strings.

Local Open Scope string_scope.
Local Open Scope list_scope.

(** ** Object identities *)

(** Identity of a layer object. *)
Abbreviation lid := nat (only parsing).
(** Identity of a [torch.nn.Parameter], the tensor handle in [variable.value]. *)
Abbreviation handle := nat (only parsing).
(** Identity of a [torch.nn.ParameterList] object. *)
Abbreviation pid := nat (only parsing).

(** ** Collaborators read by the layer *)

(** A Keras variable, as far as this file reads it: [variable.path] and
    [variable.value]; [trainable] is the flag the owner's tracker sorts on. *)
Record KerasVariable := mkVariable {
  path : string;
  value : handle;
  trainable : bool;
}.

(** A seed generator: [sg.state] is a variable. *)
Record SeedGenerator := mkSeedGenerator {
  state : KerasVariable;
}.

(** What [torch.nn.Module._modules] can hold for a layer: a sublayer, or the
    parameter list stored under the attribute [torch_params]. *)
Inductive Module :=
  | SubLayer (l : lid)
  | ParameterList (p : pid).

(** A layer object.  [_layers], [_trainable_variables],
    [_non_trainable_variables], [_seed_generators] and [built] belong to the
    Keras side; [_modules] is torch's ordered registry of named submodules,
    which is where a module-valued attribute such as [torch_params] lives. *)
Record Layer := mkLayer {
  _layers : list lid;
  _trainable_variables : list KerasVariable;
  _non_trainable_variables : list KerasVariable;
  _seed_generators : list SeedGenerator;
  built : bool;
  _modules : list (string * Module);
}.

(** The store.  [parameter_lists] is the arena of [ParameterList] objects: the
    object with identity [p] is the [p]-th entry, and a new one is appended.
    [tensors] holds the contents behind each handle.  [stateless_scope] is
    the global flag answered by [in_stateless_scope()]. *)
Record Heap := mkHeap {
  layers : gmap nat Layer;
  parameter_lists : list (list handle);
  tensors : gmap nat (list Z);
  stateless_scope : bool;
}.

#[global] Instance KerasVariable_eq_dec : EqDecision KerasVariable.
Proof. solve_decision. Defined.
#[global] Instance SeedGenerator_eq_dec : EqDecision SeedGenerator.
Proof. solve_decision. Defined.
#[global] Instance Module_eq_dec : EqDecision Module.
Proof. solve_decision. Defined.

Definition with_modules (ms : list (string * Module)) (L : Layer) : Layer :=
  {| _layers := _layers L;
     _trainable_variables := _trainable_variables L;
     _non_trainable_variables := _non_trainable_variables L;
     _seed_generators := _seed_generators L;
     built := built L;
     _modules := ms |}.

Definition with_layers (ls : gmap nat Layer) (h : Heap) : Heap :=
  {| layers := ls;
     parameter_lists := parameter_lists h;
     tensors := tensors h;
     stateless_scope := stateless_scope h |}.

Definition with_parameter_lists (ps : list (list handle)) (h : Heap) : Heap :=
  {| layers := layers h;
     parameter_lists := ps;
     tensors := tensors h;
     stateless_scope := stateless_scope h |}.

Definition with_tensors (ts : gmap nat (list Z)) (h : Heap) : Heap :=
  {| layers := layers h;
     parameter_lists := parameter_lists h;
     tensors := ts;
     stateless_scope := stateless_scope h |}.

(** ** The ordered module registry *)

Module Registry.

(** [name in _modules] / [_modules[name]]: the first entry under [name]. *)
Fixpoint get (name : string) (ms : list (string * Module)) : option Module :=
  match ms with
  | [] => None
  | (k, m) :: ms' => if decide (k = name) then Some m else get name ms'
  end.

(** [_modules[name] = m]: an existing key keeps its place, a new key goes
    to the end. *)
Fixpoint set (name : string) (m : Module) (ms : list (string * Module))
    : list (string * Module) :=
  match ms with
  | [] => [(name, m)]
  | (k, m') :: ms' =>
      if decide (k = name) then (name, m) :: ms'
      else (k, m') :: set name m ms'
  end.

(** [del _modules[name]]. *)
Fixpoint del (name : string) (ms : list (string * Module))
    : list (string * Module) :=
  match ms with
  | [] => []
  | (k, m') :: ms' =>
      if decide (k = name) then del name ms' else (k, m') :: del name ms'
  end.

End Registry.

(** ** Computations *)

Inductive exn :=
  | AttributeError (attr : string)
  | RuntimeError (msg : string).

Inductive outcome (A : Type) :=
  | Return (a : A)
  | Raise (e : exn).
Arguments Return {A} a.
Arguments Raise {A} e.

(** A method run from a store ends with a value or an exception and a store;
    [None] stands for a recursion that did not finish within its fuel (or a
    reference to an object that does not exist, which Python cannot form). *)
Definition Py (A : Type) : Type := Heap → option (outcome A * Heap).

#[global] Instance Py_ret : MRet Py := λ A a h, Some (Return a, h).

#[global] Instance Py_bind : MBind Py := λ A B k m h,
  match m h with
  | None => None
  | Some (Return a, h') => k a h'
  | Some (Raise e, h') => Some (Raise e, h')
  end.

Definition raise {A} (e : exn) : Py A := λ h, Some (Raise e, h).

Definition diverge {A} : Py A := λ _, None.

(** [for x in xs: body(x)] *)
Fixpoint for_each {A} (xs : list A) (body : A → Py unit) : Py unit :=
  match xs with
  | [] => mret tt
  | x :: xs' => body x;; for_each xs' body
  end.

(** Reading the attribute [f] of the layer [self]. *)
Definition attr {A} (f : Layer → A) (self : lid) : Py A := λ h,
  match layers h !! self with
  | Some L => Some (Return (f L), h)
  | None => None
  end.

Definition update_modules (self : lid)
    (f : list (string * Module) → list (string * Module)) : Py unit := λ h,
  match layers h !! self with
  | Some L =>
      Some (Return tt,
            with_layers (<[self := with_modules (f (_modules L)) L]> (layers h)) h)
  | None => None
  end.

(** [hasattr(self, name)] for a module-valued attribute. *)
Definition hasattr (self : lid) (name : string) : Py bool :=
  ms ← attr _modules self;
  mret (bool_decide (is_Some (Registry.get name ms))).

(** [self.name = m] for a module [m]. *)
Definition setattr (self : lid) (name : string) (m : Module) : Py unit :=
  update_modules self (Registry.set name m).

(** [del self.name]: an [AttributeError] when the attribute is absent. *)
Definition delattr (self : lid) (name : string) : Py unit :=
  ms ← attr _modules self;
  match Registry.get name ms with
  | Some _ => update_modules self (Registry.del name)
  | None => raise (AttributeError name)
  end.

(** [torch.nn.ParameterList(values)]: a new object holding the very handles
    it was given. *)
Definition new_ParameterList (values : list handle) : Py pid := λ h,
  Some (Return (length (parameter_lists h)),
        with_parameter_lists (parameter_lists h ++ [values]) h).

Definition in_stateless_scope : Py bool := λ h,
  Some (Return (stateless_scope h), h).

(** ** The methods of [TorchLayer]

    The module constant [NEW_IMPL] is [True]; the branches under
    [if not NEW_IMPL] cannot run and are left out. *)

Definition _torch_params_tracked (self : lid) : Py bool :=
  hasattr self "torch_params".

Fixpoint _track_torch_params (fuel : nat) (self : lid) : Py unit :=
  match fuel with
  | 0 => diverge
  | S fuel' =>
      ls ← attr _layers self;
      for_each ls (_track_torch_params fuel');;
      tracked ← _torch_params_tracked self;
      if tracked : bool then mret tt else
      tv ← attr _trainable_variables self;
      ntv ← attr _non_trainable_variables self;
      let torch_params := value <$> (tv ++ ntv) in
      sgs ← attr _seed_generators self;
      let torch_params := torch_params ++ ((λ sg, value (state sg)) <$> sgs) in
      pl ← new_ParameterList torch_params;
      setattr self "torch_params" (ParameterList pl)
  end.

Fixpoint _untrack_torch_params (fuel : nat) (self : lid) : Py unit :=
  match fuel with
  | 0 => diverge
  | S fuel' =>
      ls ← attr _layers self;
      for_each ls (_untrack_torch_params fuel');;
      delattr self "torch_params"
  end.

Definition _post_build (fuel : nat) (self : lid) : Py unit :=
  stateless ← in_stateless_scope;
  if stateless : bool then mret tt else
  _track_torch_params fuel self.

(** What [torch.nn.Module.named_parameters] returns: a generator, which has
    not looked at any module yet. *)
Record NativeIterator := mkNativeIterator {
  it_self : lid;
  it_prefix : string;
  it_recurse : bool;
  it_remove_duplicate : bool;
}.

Definition not_built_message : string :=
  "Torch parameters are not tracked yet and layer is not built. Did you forget to call build()?".

Definition named_parameters (fuel : nat) (self : lid)
    (prefix : string) (recurse remove_duplicate : bool) : Py NativeIterator :=
  tracked ← _torch_params_tracked self;
  (if tracked : bool then mret tt else
     b ← attr built self;
     if b : bool then _track_torch_params fuel self
     else raise (RuntimeError not_built_message));;
  mret (mkNativeIterator self prefix recurse remove_duplicate).

Definition _post_track_variable (fuel : nat) (self : lid)
    (variable : KerasVariable) : Py unit :=
  tracked ← _torch_params_tracked self;
  if tracked : bool then
    _untrack_torch_params fuel self;;
    _track_torch_params fuel self
  else mret tt.

Definition _post_untrack_variable (fuel : nat) (self : lid)
    (variable : KerasVariable) : Py unit :=
  tracked ← _torch_params_tracked self;
  if tracked : bool then
    _untrack_torch_params fuel self;;
    _track_torch_params fuel self
  else mret tt.

(** ** The attribute-assignment hook *)

(** Modelled from the spec: the classes the hook tests with [isinstance],
    which are declared outside the sources ([keras.src.layers.Layer],
    [keras.src.utils.torch_utils.TorchModuleWrapper]).  A value is a Keras
    layer, a wrapping adapter around a value, a native module that is no
    layer, or any other object.  Under this backend every layer is a
    [torch.nn.Module], and the wrapping adapter is itself a layer (the hook
    asks [isinstance(self, TorchModuleWrapper)] of a layer). *)
Inductive PyValue :=
  | KerasLayer (l : lid)
  | TorchModuleWrapper (module : PyValue)
  | TorchModule (m : nat)
  | PyObject (o : nat).

Definition isinstance_Module (v : PyValue) : bool :=
  match v with
  | KerasLayer _ | TorchModuleWrapper _ | TorchModule _ => true
  | PyObject _ => false
  end.

Definition isinstance_Layer (v : PyValue) : bool :=
  match v with
  | KerasLayer _ | TorchModuleWrapper _ => true
  | TorchModule _ | PyObject _ => false
  end.

Definition isinstance_TorchModuleWrapper (v : PyValue) : bool :=
  match v with
  | TorchModuleWrapper _ => true
  | KerasLayer _ | TorchModule _ | PyObject _ => false
  end.

Definition _setattr_hook (self : PyValue) (name : string) (value : PyValue)
    : string * PyValue :=
  let value :=
    if isinstance_Module value
       && negb (isinstance_Layer value)
       && negb (bool_decide (name = "torch_params"))
    then
      if negb (isinstance_TorchModuleWrapper self)
      then TorchModuleWrapper value
      else value
    else value in
  (name, value).

(** ** The native enumeration *)

(** [prefix + ("." if prefix else "") + name] *)
Definition qualify (prefix name : string) : string :=
  if decide (prefix = "") then name else prefix +:+ "." +:+ name.

(** The key of the [i]-th entry of a [ParameterList]: [str(i)]. *)
Definition index_name (i : nat) : string :=
  NilZero.string_of_uint (Nat.to_uint i).

(** Modelled from the spec: the native runtime's traversal behind
    [torch.nn.Module.named_parameters], which is library code and not part of
    the sources.  It walks the registered submodules in registration order,
    qualifies names with the prefix, lists a parameter list's handles under
    their positions, and looks at the module alone when [recurse] is false (a
    layer holds no parameter of its own: its handles are in [torch_params]). *)
Fixpoint named_members (fuel : nat) (h : Heap) (m : Module)
    (prefix : string) (recurse : bool) : option (list (string * handle)) :=
  match fuel with
  | 0 => None
  | S fuel' =>
      match m with
      | ParameterList p =>
          hs ← parameter_lists h !! p;
          Some (imap (λ i hd, (qualify prefix (index_name i), hd)) hs)
      | SubLayer l =>
          L ← layers h !! l;
          if recurse then
            below ← mapM (λ e : string * Module,
                            named_members fuel' h e.2 (qualify prefix e.1) recurse)
                         (_modules L);
            Some (mjoin below)
          else Some []
      end
  end.

(** Modelled from the spec: with [remove_duplicate], a handle already yielded
    (the same object) is skipped. *)
Fixpoint remove_duplicate_handles (seen : list handle)
    (xs : list (string * handle)) : list (string * handle) :=
  match xs with
  | [] => []
  | (name, v) :: xs' =>
      if decide (v ∈ seen) then remove_duplicate_handles seen xs'
      else (name, v) :: remove_duplicate_handles (v :: seen) xs'
  end.

(** [list(it)]: running the generator to its end. *)
Definition consume (fuel : nat) (it : NativeIterator)
    : Py (list (string * handle)) := λ h,
  match named_members fuel h (SubLayer (it_self it)) (it_prefix it) (it_recurse it) with
  | Some all =>
      Some (Return (if it_remove_duplicate it
                    then remove_duplicate_handles [] all else all), h)
  | None => None
  end.

(** ** The owner's tracker *)

Definition with_trainable_variables (vs : list KerasVariable) (L : Layer) : Layer :=
  {| _layers := _layers L;
     _trainable_variables := vs;
     _non_trainable_variables := _non_trainable_variables L;
     _seed_generators := _seed_generators L;
     built := built L;
     _modules := _modules L |}.

Definition with_non_trainable_variables (vs : list KerasVariable) (L : Layer) : Layer :=
  {| _layers := _layers L;
     _trainable_variables := _trainable_variables L;
     _non_trainable_variables := vs;
     _seed_generators := _seed_generators L;
     built := built L;
     _modules := _modules L |}.

Definition update_layer (self : lid) (f : Layer → Layer) : Py unit := λ h,
  match layers h !! self with
  | Some L => Some (Return tt, with_layers (<[self := f L]> (layers h)) h)
  | None => None
  end.

(** Modelled from the spec: [Layer._track_variable], which is not in the
    sources.  The tracker adds the variable at the end of its partition and
    then reports the event ([on_track]). *)
Definition _track_variable (fuel : nat) (self : lid) (variable : KerasVariable)
    : Py unit :=
  update_layer self (λ L,
    if trainable variable
    then with_trainable_variables (_trainable_variables L ++ [variable]) L
    else with_non_trainable_variables (_non_trainable_variables L ++ [variable]) L);;
  _post_track_variable fuel self variable.

(** Modelled from the spec: [Layer._untrack_variable], which is not in the
    sources.  The tracker removes the variable from its partition and then
    reports the event ([on_untrack]). *)
Definition _untrack_variable (fuel : nat) (self : lid) (variable : KerasVariable)
    : Py unit :=
  update_layer self (λ L,
    with_trainable_variables (filter (λ v, v ≠ variable) (_trainable_variables L))
      (with_non_trainable_variables
         (filter (λ v, v ≠ variable) (_non_trainable_variables L)) L));;
  _post_untrack_variable fuel self variable.

(** ** Tensor contents *)

(** An in-place write through a handle (as [Variable.assign] does). *)
Definition assign (hd : handle) (data : list Z) (h : Heap) : Heap :=
  with_tensors (<[hd := data]> (tensors h)) h.

(** ** Observations on a store *)

Definition tracked_layer (L : Layer) : Prop :=
  is_Some (Registry.get "torch_params" (_modules L)).

(** [hasattr(l, "torch_params")] in the store [h]. *)
Definition tracked (h : Heap) (l : lid) : Prop :=
  ∃ L, layers h !! l = Some L ∧ tracked_layer L.

#[global] Instance tracked_layer_dec L : Decision (tracked_layer L).
Proof. unfold tracked_layer. apply _. Defined.

#[global] Instance tracked_dec h l : Decision (tracked h l).
Proof.
  unfold tracked. destruct (layers h !! l) as [L|].
  - destruct (decide (tracked_layer L)) as [Ht|Hn].
    + left. by exists L.
    + right. intros (L' & [= <-] & Ht). by apply Hn.
  - right. by intros (L' & [=] & _).
Defined.

(** The object stored in [l.torch_params]. *)
Definition torch_params (h : Heap) (l : lid) : option Module :=
  L ← layers h !! l; Registry.get "torch_params" (_modules L).

(** The handles of [l.torch_params], in order. *)
Definition snapshot (h : Heap) (l : lid) : option (list handle) :=
  m ← torch_params h l;
  match m with
  | ParameterList p => parameter_lists h !! p
  | SubLayer _ => None
  end.

(** The handles a layer owns: trainable variables, then non-trainable
    variables, then seed-generator states, each in list order. *)
Definition exposed_values (L : Layer) : list handle :=
  (value <$> _trainable_variables L)
  ++ (value <$> _non_trainable_variables L)
  ++ ((λ sg, value (state sg)) <$> _seed_generators L).

(** The contents read through a variable, and through the [i]-th entry of a
    layer's [torch_params]. *)
Definition read_variable (h : Heap) (v : KerasVariable) : option (list Z) :=
  tensors h !! value v.

Definition read_torch_param (h : Heap) (l : lid) (i : nat) : option (list Z) :=
  hs ← snapshot h l; hd ← hs !! i; tensors h !! hd.

(** The layers below [l], [l] first, following [_layers] to depth [fuel];
    [None] when the hierarchy below [l] is deeper than [fuel] (or loops). *)
Fixpoint subtree (fuel : nat) (h : Heap) (l : lid) : option (list lid) :=
  match fuel with
  | 0 => None
  | S fuel' =>
      L ← layers h !! l;
      below ← mapM (subtree fuel' h) (_layers L);
      Some (l :: mjoin below)
  end.

(** Everything but the module registry of a layer. *)
Definition keras_side (h : Heap) : gmap nat Layer :=
  with_modules [] <$> layers h.

(** The registry without the [torch_params] entry. *)
Definition other_modules (L : Layer) : list (string * Module) :=
  Registry.del "torch_params" (_modules L).

(** No layer has [torch_params]. *)
Definition snapshot_free (h : Heap) : bool :=
  bool_decide (map_Forall (λ _ L, Registry.get "torch_params" (_modules L) = None)
                          (layers h)).

(** Below [l] the hierarchy is a tree of depth at most [fuel]: no layer is
    reached twice. *)
Definition tree_below (fuel : nat) (h : Heap) (l : lid) : Prop :=
  from_option (λ ids, NoDup ids) False (subtree fuel h l).

#[global] Instance tree_below_dec fuel h l : Decision (tree_below fuel h l).
Proof. unfold tree_below. destruct (subtree fuel h l); simpl; apply _. Defined.

(** The same below every layer of the store. *)
Definition tree_shaped (fuel : nat) (h : Heap) : bool :=
  bool_decide (map_Forall (λ l _, tree_below fuel h l) (layers h)).

(** A layer with [torch_params] has only children with [torch_params]. *)
Definition subtree_invariant (h : Heap) : Prop :=
  ∀ p P c, layers h !! p = Some P → tracked_layer P → c ∈ _layers P → tracked h c.

(** The snapshot of [l], if there is one, is the list of the handles [l]
    owns. *)
Definition verbatim (h : Heap) (l : lid) : Prop :=
  match layers h !! l with
  | Some L =>
      match Registry.get "torch_params" (_modules L) with
      | Some (ParameterList p) => parameter_lists h !! p = Some (exposed_values L)
      | Some (SubLayer _) => False
      | None => True
      end
  | None => True
  end.

(** ** Calls from outside *)

Inductive call :=
  | Call_post_build (self : lid)
  | Call_track_torch_params (self : lid)
  | Call_untrack_torch_params (self : lid)
  | Call_post_track_variable (self : lid) (variable : KerasVariable)
  | Call_post_untrack_variable (self : lid) (variable : KerasVariable)
  | Call_track_variable (self : lid) (variable : KerasVariable)
  | Call_untrack_variable (self : lid) (variable : KerasVariable)
  | Call_named_parameters (self : lid) (prefix : string) (recurse remove_duplicate : bool).

Definition invoke (fuel : nat) (c : call) : Py unit :=
  match c with
  | Call_post_build self => _post_build fuel self
  | Call_track_torch_params self => _track_torch_params fuel self
  | Call_untrack_torch_params self => _untrack_torch_params fuel self
  | Call_post_track_variable self v => _post_track_variable fuel self v
  | Call_post_untrack_variable self v => _post_untrack_variable fuel self v
  | Call_track_variable self v => _track_variable fuel self v
  | Call_untrack_variable self v => _untrack_variable fuel self v
  | Call_named_parameters self prefix recurse remove_duplicate =>
      named_parameters fuel self prefix recurse remove_duplicate;; mret tt
  end.

(** The five entry points of the adapter. *)
Definition adapter_call (c : call) : Prop :=
  match c with
  | Call_post_build _ | Call_track_torch_params _ | Call_untrack_torch_params _
  | Call_post_track_variable _ _ | Call_post_untrack_variable _ _ => True
  | _ => False
  end.

(** Every call but a bare [_untrack_torch_params]: invalidation happens only
    inside the guarded untrack-then-track of the variable hooks. *)
Definition lifecycle_call (c : call) : Prop :=
  match c with
  | Call_untrack_torch_params _ => False
  | _ => True
  end.

(** The stores that calls satisfying [allowed] lead to from [h0], whether a
    call returns or raises. *)
Inductive reachable (fuel : nat) (allowed : call → Prop) (h0 : Heap) : Heap → Prop :=
  | reachable_init : reachable fuel allowed h0 h0
  | reachable_step h c o h' :
      reachable fuel allowed h0 h →
      allowed c →
      invoke fuel c h = Some (o, h') →
      reachable fuel allowed h0 h'.

(** ** Two runs side by side *)

(** Two module references that look the same from outside, given the arenas
    of the two runs: the same sublayer, or two parameter lists with the same
    handles in the same order. *)
Definition module_sim (a1 a2 : list (list handle)) (m1 m2 : Module) : Prop :=
  match m1, m2 with
  | SubLayer l1, SubLayer l2 => l1 = l2
  | ParameterList p1, ParameterList p2 =>
      match a1 !! p1, a2 !! p2 with
      | Some hs1, Some hs2 => hs1 = hs2
      | _, _ => False
      end
  | _, _ => False
  end.

Definition entry_sim (a1 a2 : list (list handle)) (e1 e2 : string * Module) : Prop :=
  e1.1 = e2.1 ∧ module_sim a1 a2 e1.2 e2.2.

Definition layer_sim (a1 a2 : list (list handle)) (L1 L2 : Layer) : Prop :=
  with_modules [] L1 = with_modules [] L2
  ∧ Forall2 (entry_sim a1 a2) (_modules L1) (_modules L2).

(** Two stores holding the same layers, variables and tensors, which may
    differ in the identities of their [ParameterList] objects and in what
    else their arenas hold: the stores of two independent runs. *)
Definition heap_sim (h1 h2 : Heap) : Prop :=
  tensors h1 = tensors h2
  ∧ stateless_scope h1 = stateless_scope h2
  ∧ map_relation (λ _, layer_sim (parameter_lists h1) (parameter_lists h2))
                 (λ _ _, False) (λ _ _, False) (layers h1) (layers h2).

#[global] Instance Layer_eq_dec : EqDecision Layer.
Proof. solve_decision. Defined.

#[global] Instance module_sim_dec a1 a2 m1 m2 : Decision (module_sim a1 a2 m1 m2).
Proof.
  unfold module_sim. destruct m1, m2; try apply _.
  destruct (a1 !! p), (a2 !! p0); apply _.
Defined.

#[global] Instance entry_sim_dec a1 a2 e1 e2 : Decision (entry_sim a1 a2 e1 e2).
Proof. unfold entry_sim. apply _. Defined.

#[global] Instance layer_sim_dec a1 a2 L1 L2 : Decision (layer_sim a1 a2 L1 L2).
Proof. unfold layer_sim. apply _. Defined.

#[global] Instance heap_sim_dec h1 h2 : Decision (heap_sim h1 h2).
Proof. unfold heap_sim. apply _. Defined.

(** The results of two runs agree: both do not finish, or both return, or
    both raise the same exception, and the stores still look the same. *)
Definition outcome_sim {A} (R : Heap → Heap → A → A → Prop)
    (r1 r2 : option (outcome A * Heap)) : Prop :=
  match r1, r2 with
  | None, None => True
  | Some (Return a1, h1), Some (Return a2, h2) => heap_sim h1 h2 ∧ R h1 h2 a1 a2
  | Some (Raise e1, h1), Some (Raise e2, h2) => e1 = e2 ∧ heap_sim h1 h2
  | _, _ => False
  end.

Definition same_value {A} : Heap → Heap → A → A → Prop := λ _ _ a1 a2, a1 = a2.

Definition same_module : Heap → Heap → Module → Module → Prop :=
  λ h1 h2 m1 m2, module_sim (parameter_lists h1) (parameter_lists h2) m1 m2.

(** A whole run: the calls in order, then [_track_torch_params] and
    [named_parameters] on the root, and the listing of what it returns. *)
Definition enumerate (fuel : nat) (calls : list call) (root : lid)
    (prefix : string) (recurse remove_duplicate : bool)
    : Py (list (string * handle)) :=
  for_each calls (invoke fuel);;
  _track_torch_params fuel root;;
  it ← named_parameters fuel root prefix recurse remove_duplicate;
  consume fuel it.


Definition expose (p : pid) (L : Layer) : Layer :=
  with_modules (Registry.set "torch_params" (ParameterList p) (_modules L)) L.

Definition unexpose (L : Layer) : Layer :=
  with_modules (other_modules L) L.

Definition skeleton (h : Heap) : gmap nat (list lid) := _layers <$> layers h.

(** What a run of [_track_torch_params] that reaches the layers [ids] does to
    a store: a layer either keeps its state, or it is one of [ids], had no
    [torch_params], and now holds a new parameter list with the handles it
    owns; nothing else changes. *)
Definition track_post (h h' : Heap) (ids : list lid) : Prop :=
  tensors h' = tensors h
  ∧ stateless_scope h' = stateless_scope h
  ∧ (∃ new, parameter_lists h' = parameter_lists h ++ new)
  ∧ (∀ x, layers h' !! x = layers h !! x
          ∨ (x ∈ ids ∧ ∃ L p, layers h !! x = Some L ∧ ¬ tracked_layer L
               ∧ layers h' !! x = Some (expose p L)
               ∧ (length (parameter_lists h) ≤ p)%nat
               ∧ parameter_lists h' !! p = Some (exposed_values L)))
  ∧ (∀ x, x ∈ ids → tracked h' x).

(** What a run of [_untrack_torch_params] over the layers [ids] does when it
    returns: exactly these layers lose [torch_params]. *)
Definition untrack_post (h h' : Heap) (ids : list lid) : Prop :=
  tensors h' = tensors h
  ∧ stateless_scope h' = stateless_scope h
  ∧ parameter_lists h' = parameter_lists h
  ∧ (∀ x, x ∉ ids → layers h' !! x = layers h !! x)
  ∧ (∀ x, x ∈ ids → ∃ L, layers h !! x = Some L ∧ layers h' !! x = Some (unexpose L)).

(** What any run of [_untrack_torch_params] does, returning or not: some
    layers lose [torch_params], and nothing else changes. *)
Definition untrack_frame (h h' : Heap) : Prop :=
  tensors h' = tensors h
  ∧ stateless_scope h' = stateless_scope h
  ∧ parameter_lists h' = parameter_lists h
  ∧ (∀ x, layers h' !! x = layers h !! x
          ∨ ∃ L, layers h !! x = Some L ∧ tracked_layer L
                 ∧ layers h' !! x = Some (unexpose L)).

(** Closing a decidable proposition about a concrete store by evaluation. *)
Ltac by_evaluation := apply (bool_decide_unpack _); vm_compute; exact I.

(** The generator that [named_parameters] hands back. *)
Definition the_iterator (l : lid) (prefix : string) (recurse remove_duplicate : bool)
    : NativeIterator :=
  mkNativeIterator l prefix recurse remove_duplicate.

(** The condition under which the hook wraps, as the code tests it. *)
Definition hook_wraps (self : PyValue) (name : string) (value : PyValue) : bool :=
  isinstance_Module value
  && negb (isinstance_Layer value)
  && negb (bool_decide (name = "torch_params"))
  && negb (isinstance_TorchModuleWrapper self).

(** ** Sample stores *)

Definition var_w : KerasVariable := mkVariable "model/w" 20 true.
Definition var_a : KerasVariable := mkVariable "model/dense/a" 10 true.
Definition var_b : KerasVariable := mkVariable "model/dense/b" 11 true.
Definition var_c : KerasVariable := mkVariable "model/dense/c" 12 false.
Definition var_s : KerasVariable := mkVariable "model/dense/seed" 13 false.

(** A model (layer 0) with one sublayer (layer 1, attribute [dense]); nothing
    has been exposed to torch yet. *)
Definition sample_store : Heap :=
  {| layers :=
       <[0 := mkLayer [1] [var_w] [] [] true [("dense", SubLayer 1)]]>
       (<[1 := mkLayer [] [var_a; var_b] [var_c] [mkSeedGenerator var_s] true []]> ∅);
     parameter_lists := [];
     tensors := <[20 := [7%Z]]> (<[10 := [1%Z]]> (<[11 := [2%Z]]>
                (<[12 := [3%Z]]> (<[13 := [4%Z]]> ∅))));
     stateless_scope := false |}.

(** The same model after [_track_torch_params] on layer 0. *)
Definition sample_exposed : Heap :=
  {| layers :=
       <[0 := mkLayer [1] [var_w] [] [] true
                [("dense", SubLayer 1); ("torch_params", ParameterList 1)]]>
       (<[1 := mkLayer [] [var_a; var_b] [var_c] [mkSeedGenerator var_s] true
                [("torch_params", ParameterList 0)]]> ∅);
     parameter_lists := [[10; 11; 12; 13]; [20]];
     tensors := tensors sample_store;
     stateless_scope := false |}.

(** A run that starts with objects already in the arena, so that every new
    [ParameterList] gets another identity than in [sample_store]. *)
Definition sample_store_shifted : Heap :=
  with_parameter_lists [[99]; [98; 97]] sample_store.

(** A single layer that was built inside a stateless scope. *)
Definition sample_stateless : Heap :=
  {| layers := {[0 := mkLayer [] [var_w] [] [] true []]};
     parameter_lists := [];
     tensors := ∅;
     stateless_scope := true |}.

(** A single layer that is not built. *)
Definition sample_unbuilt : Heap :=
  {| layers := {[0 := mkLayer [] [] [] [] false []]};
     parameter_lists := [];
     tensors := ∅;
     stateless_scope := false |}.

(** The model after [_track_torch_params] on layer 0 and then a bare
    [_untrack_torch_params] on its sublayer. *)
Definition sample_child_untracked : Heap :=
  {| layers :=
       <[0 := mkLayer [1] [var_w] [] [] true
                [("dense", SubLayer 1); ("torch_params", ParameterList 1)]]>
       (<[1 := mkLayer [] [var_a; var_b] [var_c] [mkSeedGenerator var_s] true []]> ∅);
     parameter_lists := [[10; 11; 12; 13]; [20]];
     tensors := tensors sample_store;
     stateless_scope := false |}.

(** What every store of a run from [h0] keeps: the hierarchy of [h0], the
    subtree invariant, and snapshots that list what their layers own. *)
Definition lifecycle_invariant (h0 h : Heap) : Prop :=
  skeleton h = skeleton h0 ∧ subtree_invariant h ∧ ∀ x, verbatim h x.

(** The same between the tracker's change to the lists of [l] and the hook
    that follows it: the snapshot of [l] alone may be out of date. *)
Definition pending_invariant (h0 : Heap) (l : lid) (h : Heap) : Prop :=
  skeleton h = skeleton h0 ∧ subtree_invariant h ∧ ∀ x, x ≠ l → verbatim h x.

Definition var_v : KerasVariable := mkVariable "model/lora" 21 true.

(** A model (layer 0) that holds a layer (layer 1, attribute [shared]) both
    directly and inside another sublayer (layer 2, attribute [head]). *)
Definition sample_shared : Heap :=
  {| layers :=
       <[0 := mkLayer [1; 2] [var_w] [] [] true
                [("shared", SubLayer 1); ("head", SubLayer 2)]]>
       (<[1 := mkLayer [] [var_a] [] [] true []]>
       (<[2 := mkLayer [1] [var_b] [] [] true [("inner", SubLayer 1)]]> ∅));
     parameter_lists := [];
     tensors := ∅;
     stateless_scope := false |}.

(** The same model after it was built. *)
Definition sample_shared_exposed : Heap :=
  {| layers :=
       <[0 := mkLayer [1; 2] [var_w] [] [] true
                [("shared", SubLayer 1); ("head", SubLayer 2);
                 ("torch_params", ParameterList 2)]]>
       (<[1 := mkLayer [] [var_a] [] [] true [("torch_params", ParameterList 0)]]>
       (<[2 := mkLayer [1] [var_b] [] [] true
                [("inner", SubLayer 1); ("torch_params", ParameterList 1)]]> ∅));
     parameter_lists := [[10]; [11]; [20]];
     tensors := ∅;
     stateless_scope := false |}.

(** * Properties *)

(** ** The registry *)

Lemma Registry_get_set_eq name m ms :
  Registry.get name (Registry.set name m ms) = Some m.
Proof.
  induction ms as [|[k m'] ms IH]; simpl.
  - by rewrite decide_True.
  - destruct (decide (k = name)) as [->|Hne]; simpl.
    + by rewrite decide_True.
    + by rewrite decide_False.
Qed.

Lemma Registry_get_set_ne name k m ms :
  k ≠ name → Registry.get k (Registry.set name m ms) = Registry.get k ms.
Proof.
  intros Hk. induction ms as [|[k' m'] ms IH]; simpl.
  - by rewrite decide_False.
  - destruct (decide (k' = name)) as [->|Hne]; simpl.
    + by rewrite !decide_False.
    + by rewrite IH.
Qed.

Lemma Registry_get_del_eq name ms :
  Registry.get name (Registry.del name ms) = None.
Proof.
  induction ms as [|[k m'] ms IH]; simpl; [done|].
  destruct (decide (k = name)); simpl; [done|]. by rewrite decide_False.
Qed.

Lemma Registry_del_set name m ms :
  Registry.del name (Registry.set name m ms) = Registry.del name ms.
Proof.
  induction ms as [|[k m'] ms IH]; simpl.
  - by rewrite decide_True.
  - destruct (decide (k = name)) as [->|Hne]; simpl.
    + by rewrite decide_True.
    + by rewrite decide_False, IH.
Qed.

Lemma Registry_del_absent name ms :
  Registry.get name ms = None → Registry.del name ms = ms.
Proof.
  induction ms as [|[k m'] ms IH]; simpl; [done|].
  destruct (decide (k = name)); [done|]. intros H. by rewrite IH.
Qed.

Lemma Registry_set_absent name m ms :
  Registry.get name ms = None → Registry.set name m ms = ms ++ [(name, m)].
Proof.
  induction ms as [|[k m'] ms IH]; simpl; [done|].
  destruct (decide (k = name)); [done|]. intros H. by rewrite IH.
Qed.

(** ** Layers and stores *)

Lemma tracked_layer_expose p L : tracked_layer (expose p L).
Proof. unfold tracked_layer, expose. simpl. rewrite Registry_get_set_eq. eauto. Qed.

Lemma tracked_layer_unexpose L : ¬ tracked_layer (unexpose L).
Proof.
  unfold tracked_layer, unexpose, other_modules. simpl.
  rewrite Registry_get_del_eq. by intros [? ?].
Qed.

Lemma exposed_values_expose p L : exposed_values (expose p L) = exposed_values L.
Proof. done. Qed.

Lemma exposed_values_unexpose L : exposed_values (unexpose L) = exposed_values L.
Proof. done. Qed.

Lemma tracked_layer_dec_eq L :
  bool_decide (is_Some (Registry.get "torch_params" (_modules L))) = true
  ↔ tracked_layer L.
Proof. unfold tracked_layer. by rewrite bool_decide_eq_true. Qed.

Lemma not_tracked_layer L :
  ¬ tracked_layer L ↔ Registry.get "torch_params" (_modules L) = None.
Proof. unfold tracked_layer. by rewrite eq_None_not_Some. Qed.

Lemma not_tracked h l L :
  layers h !! l = Some L → ¬ tracked_layer L → ¬ tracked h l.
Proof. intros HL Hn (L' & HL' & Ht). congruence. Qed.

(** ** Running the primitives *)

Lemma run_bind {A B} (m : Py A) (k : A → Py B) h :
  (m ≫= k) h =
  match m h with
  | None => None
  | Some (Return a, h') => k a h'
  | Some (Raise e, h') => Some (Raise e, h')
  end.
Proof. done. Qed.

Lemma run_bind_Return {A B} (m : Py A) (k : A → Py B) h a h' :
  m h = Some (Return a, h') → (m ≫= k) h = k a h'.
Proof. intros H. by rewrite run_bind, H. Qed.

Lemma run_bind_Raise {A B} (m : Py A) (k : A → Py B) h e h' :
  m h = Some (Raise e, h') → (m ≫= k) h = Some (Raise e, h').
Proof. intros H. by rewrite run_bind, H. Qed.

Lemma run_bind_None {A B} (m : Py A) (k : A → Py B) h :
  m h = None → (m ≫= k) h = None.
Proof. intros H. by rewrite run_bind, H. Qed.

Lemma run_attr {A} (f : Layer → A) l h L :
  layers h !! l = Some L → attr f l h = Some (Return (f L), h).
Proof. intros H. unfold attr. by rewrite H. Qed.

Lemma run_tracked l h L :
  layers h !! l = Some L →
  _torch_params_tracked l h =
  Some (Return (bool_decide (tracked_layer L)), h).
Proof.
  intros H. unfold _torch_params_tracked, hasattr.
  by rewrite (run_bind_Return _ _ _ _ _ (run_attr _ _ _ _ H)).
Qed.

Lemma run_setattr l name m h L :
  layers h !! l = Some L →
  setattr l name m h =
  Some (Return tt,
        with_layers (<[l := with_modules (Registry.set name m (_modules L)) L]> (layers h)) h).
Proof. intros H. unfold setattr, update_modules. by rewrite H. Qed.

Lemma run_delattr_present l h L :
  layers h !! l = Some L → tracked_layer L →
  delattr l "torch_params" h =
  Some (Return tt, with_layers (<[l := unexpose L]> (layers h)) h).
Proof.
  intros H [m Hm]. unfold delattr.
  rewrite (run_bind_Return _ _ _ _ _ (run_attr _ _ _ _ H)), Hm.
  unfold update_modules. by rewrite H.
Qed.

Lemma run_delattr_absent l h L :
  layers h !! l = Some L → ¬ tracked_layer L →
  delattr l "torch_params" h = Some (Raise (AttributeError "torch_params"), h).
Proof.
  intros H Hn. apply not_tracked_layer in Hn. unfold delattr.
  by rewrite (run_bind_Return _ _ _ _ _ (run_attr _ _ _ _ H)), Hn.
Qed.

(** ** The hierarchy below a layer *)

Lemma skeleton_lookup h l : skeleton h !! l = _layers <$> layers h !! l.
Proof. unfold skeleton. by rewrite lookup_fmap. Qed.

Lemma keras_side_lookup h l : keras_side h !! l = with_modules [] <$> layers h !! l.
Proof. unfold keras_side. by rewrite lookup_fmap. Qed.

Lemma keras_side_skeleton h h' : keras_side h = keras_side h' → skeleton h = skeleton h'.
Proof.
  intros H. apply map_eq. intros l. rewrite !skeleton_lookup.
  assert (Hl := f_equal (λ m, _layers <$> m !! l) H). simpl in Hl.
  rewrite !keras_side_lookup, <-!option_fmap_compose in Hl. exact Hl.
Qed.

Lemma subtree_skeleton n h h' l :
  skeleton h = skeleton h' → subtree n h l = subtree n h' l.
Proof.
  intros Hs. revert l. induction n as [|n IH]; intros l; simpl; [done|].
  assert (Hl := f_equal (λ m, m !! l) Hs). simpl in Hl.
  rewrite !skeleton_lookup in Hl.
  destruct (layers h !! l) as [L|], (layers h' !! l) as [L'|]; simpl in *;
    try done.
  injection Hl as ->. by rewrite (mapM_ext _ _ _ IH).
Qed.

Lemma subtree_unfold n h l ids :
  subtree (S n) h l = Some ids ↔
  ∃ L below, layers h !! l = Some L
             ∧ Forall2 (λ c cids, subtree n h c = Some cids) (_layers L) below
             ∧ ids = l :: mjoin below.
Proof.
  simpl. split.
  - intros H. destruct (layers h !! l) as [L|]; simpl in H; [|done].
    destruct (mapM (subtree n h) (_layers L)) as [below|] eqn:Hb; simpl in H; [|done].
    injection H as <-. exists L, below. by rewrite <-mapM_Some.
  - intros (L & below & -> & Hb & ->). simpl.
    apply mapM_Some in Hb. by rewrite Hb.
Qed.

Lemma subtree_mono n h l ids :
  subtree n h l = Some ids → subtree (S n) h l = Some ids.
Proof.
  revert l ids. induction n as [|n IH]; intros l ids H; [done|].
  apply subtree_unfold in H as (L & below & HL & Hb & ->).
  apply subtree_unfold. exists L, below. split_and!; [done| |done].
  eapply Forall2_impl; [exact Hb|]. intros c cids. apply IH.
Qed.

Lemma subtree_root n h l ids : subtree n h l = Some ids → l ∈ ids.
Proof.
  destruct n; [done|]. intros (L & below & _ & _ & ->)%subtree_unfold.
  apply list_elem_of_here.
Qed.

Lemma subtree_lookup n h l ids x :
  subtree n h l = Some ids → x ∈ ids → is_Some (layers h !! x).
Proof.
  revert l ids. induction n as [|n IH]; intros l ids H Hx; [done|].
  apply subtree_unfold in H as (L & below & HL & Hb & ->).
  apply elem_of_cons in Hx as [->|Hx]; [eauto|].
  apply list_elem_of_join in Hx as (cids & Hx & Hc).
  apply list_elem_of_lookup in Hc as [i Hi].
  destruct (Forall2_lookup_r _ _ _ _ _ Hb Hi) as (c & _ & Hsub). eauto.
Qed.

(** The part below a layer that is itself below [l] lies below [l]. *)
Lemma subtree_sub n h l ids x :
  subtree n h l = Some ids → x ∈ ids →
  ∃ xids, subtree n h x = Some xids ∧ ∀ y, y ∈ xids → y ∈ ids.
Proof.
  revert l ids. induction n as [|n IH]; intros l ids H Hx; [done|].
  pose proof H as (L & below & HL & Hb & ->)%subtree_unfold.
  apply elem_of_cons in Hx as [->|Hx]; [eauto|].
  apply list_elem_of_join in Hx as (cids & Hx & Hc).
  apply list_elem_of_lookup in Hc as [i Hi].
  destruct (Forall2_lookup_r _ _ _ _ _ Hb Hi) as (c & _ & Hsub).
  destruct (IH _ _ Hsub Hx) as (xids & Hxs & Hin).
  exists xids. split; [by apply subtree_mono|].
  intros y Hy. apply elem_of_cons. right.
  apply list_elem_of_join. exists cids. split; [auto|].
  apply list_elem_of_lookup. eauto.
Qed.

Lemma subtree_child n h l ids L c :
  subtree n h l = Some ids → layers h !! l = Some L → c ∈ _layers L → c ∈ ids.
Proof.
  destruct n; [done|]. intros (L' & below & HL' & Hb & ->)%subtree_unfold HL Hc.
  assert (L' = L) as -> by congruence.
  apply list_elem_of_lookup in Hc as [i Hi].
  destruct (Forall2_lookup_l _ _ _ _ _ Hb Hi) as (cids & Hcids & Hsub).
  apply elem_of_cons. right. apply list_elem_of_join. exists cids.
  split; [by eapply subtree_root|]. apply list_elem_of_lookup. eauto.
Qed.

(** The hierarchy below [l] is closed under taking children. *)
Lemma subtree_closed n h l ids x X c :
  subtree n h l = Some ids → x ∈ ids →
  layers h !! x = Some X → c ∈ _layers X → c ∈ ids.
Proof.
  intros H Hx HX Hc.
  destruct (subtree_sub _ _ _ _ _ H Hx) as (xids & Hxs & Hin).
  apply Hin. by eapply subtree_child.
Qed.

(** ** [_track_torch_params] *)

Lemma track_post_nil h : track_post h h [].
Proof.
  split_and!; try done.
  - exists []. by rewrite app_nil_r.
  - intros x. by left.
  - intros x Hx. by apply elem_of_nil in Hx.
Qed.

Lemma track_post_proper h h' ids ids' :
  (∀ x, x ∈ ids ↔ x ∈ ids') → track_post h h' ids → track_post h h' ids'.
Proof.
  intros Heq (Ht & Hs & Hp & Hl & Hin). split_and!; try done.
  - intros x. destruct (Hl x) as [?|[Hx ?]]; [by left|right].
    split; [by apply Heq|done].
  - intros x Hx. apply Hin. by apply Heq.
Qed.

Lemma track_post_tracked h h' ids x :
  track_post h h' ids → tracked h x → tracked h' x.
Proof.
  intros (_ & _ & _ & Hl & _) (L & HL & Ht).
  destruct (Hl x) as [Hx|(_ & L' & p & HL' & Hn & _)].
  - exists L. by rewrite Hx.
  - congruence.
Qed.

Lemma track_post_trans h h1 h2 ids1 ids2 :
  track_post h h1 ids1 → track_post h1 h2 ids2 → track_post h h2 (ids1 ++ ids2).
Proof.
  intros H1 H2.
  pose proof H1 as (Ht1 & Hs1 & [new1 Hp1] & Hl1 & Hin1).
  pose proof H2 as (Ht2 & Hs2 & [new2 Hp2] & Hl2 & Hin2).
  split_and!; try congruence.
  - exists (new1 ++ new2). by rewrite Hp2, Hp1, <-(assoc_L _).
  - intros x.
    destruct (Hl2 x) as [Hx2|(Hx2 & L & p & HL & Hn & HL' & Hlen & Hp)].
    + destruct (Hl1 x) as [Hx1|(Hx1 & L & p & HL & Hn & HL' & Hlen & Hp)].
      * left. congruence.
      * right. split; [apply elem_of_app; by left|].
        exists L, p. split_and!; try done; [congruence|].
        rewrite Hp2. by apply lookup_app_l_Some.
    + destruct (Hl1 x) as [Hx1|(Hx1 & L1 & p1 & HL1 & Hn1 & HL1' & _)].
      * right. split; [apply elem_of_app; by right|].
        exists L, p. split_and!; try done; [congruence|].
        rewrite Hp1, length_app in Hlen. lia.
      * rewrite HL in HL1'. injection HL1' as ->.
        destruct Hn. apply tracked_layer_expose.
  - intros x [Hx|Hx]%elem_of_app; [|by apply Hin2].
    eapply track_post_tracked; [exact H2|]. by apply Hin1.
Qed.

Lemma track_post_skeleton h h' ids : track_post h h' ids → skeleton h' = skeleton h.
Proof.
  intros (_ & _ & _ & Hl & _). apply map_eq. intros x. rewrite !skeleton_lookup.
  destruct (Hl x) as [->|(_ & L & p & -> & _ & -> & _)]; done.
Qed.

Lemma track_post_keras_side h h' ids : track_post h h' ids → keras_side h' = keras_side h.
Proof.
  intros (_ & _ & _ & Hl & _). apply map_eq. intros x. rewrite !keras_side_lookup.
  destruct (Hl x) as [->|(_ & L & p & -> & _ & -> & _)]; done.
Qed.

Lemma track_post_parameter_lists h h' ids p hs :
  track_post h h' ids →
  parameter_lists h !! p = Some hs → parameter_lists h' !! p = Some hs.
Proof. intros (_ & _ & [new ->] & _) Hp. by apply lookup_app_l_Some. Qed.

Lemma track_unfold n self :
  _track_torch_params (S n) self =
  (ls ← attr _layers self;
   for_each ls (_track_torch_params n);;
   tracked ← _torch_params_tracked self;
   if tracked : bool then mret tt else
   tv ← attr _trainable_variables self;
   ntv ← attr _non_trainable_variables self;
   let torch_params := value <$> (tv ++ ntv) in
   sgs ← attr _seed_generators self;
   let torch_params := torch_params ++ ((λ sg, value (state sg)) <$> sgs) in
   pl ← new_ParameterList torch_params;
   setattr self "torch_params" (ParameterList pl)).
Proof. done. Qed.

(** The body of [_track_torch_params] after the loop over the children. *)
Lemma track_self l h L :
  layers h !! l = Some L →
  ∃ h', (tracked ← _torch_params_tracked l;
         if tracked : bool then mret tt else
         tv ← attr _trainable_variables l;
         ntv ← attr _non_trainable_variables l;
         let torch_params := value <$> (tv ++ ntv) in
         sgs ← attr _seed_generators l;
         let torch_params := torch_params ++ ((λ sg, value (state sg)) <$> sgs) in
         pl ← new_ParameterList torch_params;
         setattr l "torch_params" (ParameterList pl)) h = Some (Return tt, h')
        ∧ track_post h h' [l].
Proof.
  intros HL. rewrite (run_bind_Return _ _ _ _ _ (run_tracked _ _ _ HL)).
  destruct (decide (tracked_layer L)) as [Ht|Hn].
  - rewrite (bool_decide_eq_true_2 _ Ht). exists h. split; [done|].
    split_and!; try done.
    + exists []. by rewrite app_nil_r.
    + intros x. by left.
    + intros x ->%list_elem_of_singleton. by exists L.
  - rewrite (bool_decide_eq_false_2 _ Hn).
    rewrite (run_bind_Return _ _ _ _ _ (run_attr _ _ _ _ HL)).
    rewrite (run_bind_Return _ _ _ _ _ (run_attr _ _ _ _ HL)).
    rewrite (run_bind_Return _ _ _ _ _ (run_attr _ _ _ _ HL)).
    cbv zeta. rewrite run_bind. unfold new_ParameterList at 1.
    set (h1 := with_parameter_lists _ h).
    assert (layers h1 !! l = Some L) as HL1 by done.
    rewrite (run_setattr _ _ _ _ _ HL1).
    eexists. split; [done|].
    assert ((value <$> _trainable_variables L ++ _non_trainable_variables L)
            ++ ((λ sg, value (state sg)) <$> _seed_generators L)
            = exposed_values L) as Hv.
    { unfold exposed_values. by rewrite fmap_app, <-(assoc_L _). }
    split_and!; simpl; try done.
    + by eexists.
    + intros x. destruct (decide (x = l)) as [->|Hx].
      * right. split; [apply list_elem_of_here|].
        exists L, (length (parameter_lists h)). split_and!; try done.
        -- by rewrite lookup_insert_eq.
        -- rewrite Hv. by apply list_lookup_middle.
      * left. by rewrite lookup_insert_ne.
    + intros x ->%list_elem_of_singleton. exists (expose (length (parameter_lists h)) L).
      simpl. rewrite lookup_insert_eq. split; [done|]. apply tracked_layer_expose.
Qed.

Lemma track_children n cs :
  (∀ l h ids, subtree n h l = Some ids →
     ∃ h', _track_torch_params n l h = Some (Return tt, h') ∧ track_post h h' ids) →
  ∀ h below,
    Forall2 (λ c cids, subtree n h c = Some cids) cs below →
    ∃ h', for_each cs (_track_torch_params n) h = Some (Return tt, h')
          ∧ track_post h h' (mjoin below).
Proof.
  intros IHn. induction cs as [|c cs IH]; intros h below Hb.
  - apply Forall2_nil_inv_l in Hb as ->. exists h. split; [done|apply track_post_nil].
  - apply Forall2_cons_inv_l in Hb as (cids & below' & Hc & Hb & ->).
    destruct (IHn _ _ _ Hc) as (h1 & Hrun1 & Hpost1).
    assert (Forall2 (λ c cids, subtree n h1 c = Some cids) cs below') as Hb1.
    { eapply Forall2_impl; [exact Hb|]. intros c' cids' Hc'. simpl in Hc'.
      by rewrite (subtree_skeleton _ _ _ _ (track_post_skeleton _ _ _ Hpost1)). }
    destruct (IH _ _ Hb1) as (h2 & Hrun2 & Hpost2).
    exists h2. split.
    + simpl. by rewrite (run_bind_Return _ _ _ _ _ Hrun1).
    + simpl. by eapply track_post_trans.
Qed.

(** [_track_torch_params] returns on every finite hierarchy, and what it does
    is described by [track_post]. *)
Lemma track_spec n l h ids :
  subtree n h l = Some ids →
  ∃ h', _track_torch_params n l h = Some (Return tt, h') ∧ track_post h h' ids.
Proof.
  revert l h ids. induction n as [|n IH]; intros l h ids Hsub; [done|].
  apply subtree_unfold in Hsub as (L & below & HL & Hb & ->).
  rewrite track_unfold.
  rewrite (run_bind_Return _ _ _ _ _ (run_attr _ _ _ _ HL)).
  destruct (track_children n (_layers L) IH _ _ Hb) as (h1 & Hrun1 & Hpost1).
  rewrite (run_bind_Return _ _ _ _ _ Hrun1).
  assert (is_Some (layers h1 !! l)) as [L1 HL1].
  { destruct Hpost1 as (_ & _ & _ & Hl & _).
    destruct (Hl l) as [->|(_ & ? & ? & _ & _ & -> & _)]; eauto. }
  destruct (track_self _ _ _ HL1) as (h2 & Hrun2 & Hpost2).
  exists h2. split; [exact Hrun2|].
  eapply track_post_proper; [|eapply track_post_trans; [exact Hpost1|exact Hpost2]].
  intros x. rewrite elem_of_app, !elem_of_cons, elem_of_nil. tauto.
Qed.

(** ** [_untrack_torch_params] *)

Lemma untrack_unfold n self :
  _untrack_torch_params (S n) self =
  (ls ← attr _layers self;
   for_each ls (_untrack_torch_params n);;
   delattr self "torch_params").
Proof. done. Qed.

Lemma untrack_frame_refl h : untrack_frame h h.
Proof. split_and!; try done. intros x. by left. Qed.

Lemma untrack_frame_trans h h1 h2 :
  untrack_frame h h1 → untrack_frame h1 h2 → untrack_frame h h2.
Proof.
  intros (Ht1 & Hs1 & Hp1 & Hl1) (Ht2 & Hs2 & Hp2 & Hl2).
  split_and!; try congruence. intros x.
  destruct (Hl2 x) as [Hx2|(L2 & HL2 & Ht & HL2')].
  - destruct (Hl1 x) as [Hx1|(L1 & HL1 & Ht' & HL1')].
    + left. congruence.
    + right. exists L1. split_and!; [done|done|congruence].
  - destruct (Hl1 x) as [Hx1|(L1 & HL1 & Ht' & HL1')].
    + right. exists L2. split_and!; [congruence|done|done].
    + rewrite HL2 in HL1'. injection HL1' as ->.
      by apply tracked_layer_unexpose in Ht.
Qed.

Lemma untrack_frame_skeleton h h' : untrack_frame h h' → skeleton h' = skeleton h.
Proof.
  intros (_ & _ & _ & Hl). apply map_eq. intros x. rewrite !skeleton_lookup.
  destruct (Hl x) as [->|(L & -> & _ & ->)]; done.
Qed.

Lemma untrack_frame_keras_side h h' : untrack_frame h h' → keras_side h' = keras_side h.
Proof.
  intros (_ & _ & _ & Hl). apply map_eq. intros x. rewrite !keras_side_lookup.
  destruct (Hl x) as [->|(L & -> & _ & ->)]; done.
Qed.

(** Invalidation never adds a [torch_params]. *)
Lemma untrack_frame_tracked h h' x :
  untrack_frame h h' → tracked h' x → tracked h x.
Proof.
  intros (_ & _ & _ & Hl) (L' & HL' & Ht).
  destruct (Hl x) as [Hx|(L & HL & _ & HL2)].
  - exists L'. by rewrite <-Hx.
  - rewrite HL' in HL2. injection HL2 as ->. by apply tracked_layer_unexpose in Ht.
Qed.

Lemma untrack_post_frame h h' ids :
  (∀ x, x ∈ ids → tracked h x) → untrack_post h h' ids → untrack_frame h h'.
Proof.
  intros Hall (Ht & Hs & Hp & Hout & Hin). split_and!; try done. intros x.
  destruct (decide (x ∈ ids)) as [Hx|Hx]; [right|left; auto].
  destruct (Hin x Hx) as (L & HL & HL'). exists L. split_and!; try done.
  destruct (Hall x Hx) as (L' & HL2 & Htr). congruence.
Qed.

Lemma untrack_post_nil h : untrack_post h h [].
Proof.
  split_and!; try done. intros x Hx. by apply elem_of_nil in Hx.
Qed.

Lemma untrack_post_trans h h1 h2 ids1 ids2 :
  (∀ x, x ∈ ids1 → x ∉ ids2) →
  untrack_post h h1 ids1 → untrack_post h1 h2 ids2 →
  untrack_post h h2 (ids1 ++ ids2).
Proof.
  intros Hdisj (Ht1 & Hs1 & Hp1 & Hout1 & Hin1) (Ht2 & Hs2 & Hp2 & Hout2 & Hin2).
  split_and!; try congruence.
  - intros x Hx. rewrite elem_of_app in Hx.
    rewrite Hout2, Hout1; [done|tauto|tauto].
  - intros x [Hx|Hx]%elem_of_app.
    + destruct (Hin1 x Hx) as (L & HL & HL'). exists L. split; [done|].
      rewrite Hout2; [done|by apply Hdisj].
    + destruct (Hin2 x Hx) as (L & HL & HL'). exists L. split; [|done].
      rewrite <-Hout1; [done|]. intros Hx1. by apply (Hdisj x).
Qed.

Lemma untrack_post_proper h h' ids ids' :
  (∀ x, x ∈ ids ↔ x ∈ ids') → untrack_post h h' ids → untrack_post h h' ids'.
Proof.
  intros Heq (Ht & Hs & Hp & Hout & Hin). split_and!; try done.
  - intros x Hx. apply Hout. by rewrite Heq.
  - intros x Hx. apply Hin. by rewrite Heq.
Qed.

(** Every run of [_untrack_torch_params] on a finite hierarchy ends, with a
    return or with the [AttributeError] of a [del] on a missing attribute. *)
Lemma untrack_total n l h ids :
  subtree n h l = Some ids →
  ∃ o h', _untrack_torch_params n l h = Some (o, h')
          ∧ (o = Return tt ∨ o = Raise (AttributeError "torch_params"))
          ∧ untrack_frame h h'.
Proof.
  revert l h ids. induction n as [|n IH]; intros l h ids Hsub; [done|].
  apply subtree_unfold in Hsub as (L & below & HL & Hb & ->).
  rewrite untrack_unfold, (run_bind_Return _ _ _ _ _ (run_attr _ _ _ _ HL)).
  assert (∃ o h1, for_each (_layers L) (_untrack_torch_params n) h = Some (o, h1)
                  ∧ (o = Return tt ∨ o = Raise (AttributeError "torch_params"))
                  ∧ untrack_frame h h1) as (o & h1 & Hrun & Ho & Hfr).
  { clear HL. revert h below Hb.
    induction (_layers L) as [|c cs IHcs]; intros h below Hb.
    - exists (Return tt), h. split_and!; [done|by left|apply untrack_frame_refl].
    - apply Forall2_cons_inv_l in Hb as (cids & below' & Hc & Hb & ->).
      destruct (IH _ _ _ Hc) as (o1 & h1 & Hrun1 & [->| ->] & Hfr1).
      + assert (Forall2 (λ c cids, subtree n h1 c = Some cids) cs below') as Hb1.
        { eapply Forall2_impl; [exact Hb|]. intros c' cids' Hc'. simpl in Hc'.
          by rewrite (subtree_skeleton _ _ _ _ (untrack_frame_skeleton _ _ Hfr1)). }
        destruct (IHcs _ _ Hb1) as (o2 & h2 & Hrun2 & Ho2 & Hfr2).
        exists o2, h2. split_and!; [|done|by eapply untrack_frame_trans].
        simpl. by rewrite (run_bind_Return _ _ _ _ _ Hrun1).
      + exists (Raise (AttributeError "torch_params")), h1. split_and!; [|by right|done].
        simpl. by rewrite (run_bind_Raise _ _ _ _ _ Hrun1). }
  destruct Ho as [-> | ->].
  - rewrite (run_bind_Return _ _ _ _ _ Hrun).
    pose proof Hfr as (Ht & Hs & Hp & Hl).
    destruct (Hl l) as [Hx|(L0 & HL0 & Ht0 & HL1)].
    + rewrite HL in Hx. destruct (decide (tracked_layer L)) as [Htr|Hn].
      * rewrite (run_delattr_present _ _ _ Hx Htr). eexists _, _.
        split_and!; [done|by left|].
        eapply untrack_frame_trans; [exact Hfr|].
        split_and!; try done. intros x. simpl.
        destruct (decide (x = l)) as [->|Hne].
        -- right. exists L. by rewrite lookup_insert_eq.
        -- left. by rewrite lookup_insert_ne.
      * rewrite (run_delattr_absent _ _ _ Hx Hn). eexists _, _.
        split_and!; [done|by right|done].
    + rewrite (run_delattr_absent _ _ _ HL1 (tracked_layer_unexpose _)).
      eexists _, _. split_and!; [done|by right|done].
  - rewrite (run_bind_Raise _ _ _ _ _ Hrun). eexists _, _.
    split_and!; [done|by right|done].
Qed.

(** On a layer without [torch_params], [_untrack_torch_params] raises. *)
Lemma untrack_untracked_raises n l h ids :
  subtree n h l = Some ids → ¬ tracked h l →
  ∃ h', _untrack_torch_params n l h = Some (Raise (AttributeError "torch_params"), h')
        ∧ untrack_frame h h'.
Proof.
  intros Hsub Hn.
  destruct (untrack_total _ _ _ _ Hsub) as (o & h' & Hrun & [->| ->] & Hfr); [|eauto].
  exfalso. destruct n; [done|].
  apply subtree_unfold in Hsub as (L & below & HL & Hb & ->).
  rewrite untrack_unfold, (run_bind_Return _ _ _ _ _ (run_attr _ _ _ _ HL)) in Hrun.
  rewrite run_bind in Hrun.
  destruct (for_each (_layers L) (_untrack_torch_params n) h)
    as [[[[]|e] h1]|] eqn:Hloop; [|done|done].
  unfold delattr in Hrun. rewrite run_bind in Hrun.
  unfold attr in Hrun.
  destruct (layers h1 !! l) as [L1|] eqn:HL1; [|done].
  destruct (Registry.get "torch_params" (_modules L1)) as [m|] eqn:Hm; [|done].
  (* [l] has [torch_params] after the loop, so it had it before *)
  assert (untrack_frame h h1) as Hfr1.
  { clear -Hloop Hb. revert h below Hb Hloop.
    induction (_layers L) as [|c cs IHcs]; intros h below Hb Hloop.
    - injection Hloop as <-. apply untrack_frame_refl.
    - apply Forall2_cons_inv_l in Hb as (cids & below' & Hc & Hb & ->).
      destruct (untrack_total _ _ _ _ Hc) as (o1 & h0 & Hrun1 & Ho1 & Hfr1).
      simpl in Hloop. rewrite run_bind, Hrun1 in Hloop.
      destruct o1 as [[]|e1]; [|done].
      eapply untrack_frame_trans; [exact Hfr1|].
      eapply IHcs; [|exact Hloop].
      eapply Forall2_impl; [exact Hb|]. intros c' cids' Hc'. simpl in Hc'.
      by rewrite (subtree_skeleton _ _ _ _ (untrack_frame_skeleton _ _ Hfr1)). }
  apply Hn. eapply untrack_frame_tracked; [exact Hfr1|].
  exists L1. split; [done|]. by exists m.
Qed.

Lemma untrack_children n cs :
  (∀ l h ids, subtree n h l = Some ids → NoDup ids →
     (∀ x, x ∈ ids → tracked h x) →
     ∃ h', _untrack_torch_params n l h = Some (Return tt, h') ∧ untrack_post h h' ids) →
  ∀ h below,
    Forall2 (λ c cids, subtree n h c = Some cids) cs below →
    NoDup (mjoin below) →
    (∀ x, x ∈ mjoin below → tracked h x) →
    ∃ h', for_each cs (_untrack_torch_params n) h = Some (Return tt, h')
          ∧ untrack_post h h' (mjoin below).
Proof.
  intros IHn. induction cs as [|c cs IH]; intros h below Hb Hnd Hall.
  - apply Forall2_nil_inv_l in Hb as ->. exists h. split; [done|apply untrack_post_nil].
  - apply Forall2_cons_inv_l in Hb as (cids & below' & Hc & Hb & ->).
    simpl in Hnd, Hall. apply NoDup_app in Hnd as (Hnd1 & Hdisj & Hnd2).
    destruct (IHn _ _ _ Hc Hnd1) as (h1 & Hrun1 & Hpost1).
    { intros x Hx. apply Hall, elem_of_app. by left. }
    assert (untrack_frame h h1) as Hfr1.
    { eapply untrack_post_frame; [|exact Hpost1].
      intros x Hx. apply Hall, elem_of_app. by left. }
    assert (Forall2 (λ c cids, subtree n h1 c = Some cids) cs below') as Hb1.
    { eapply Forall2_impl; [exact Hb|]. intros c' cids' Hc'. simpl in Hc'.
      by rewrite (subtree_skeleton _ _ _ _ (untrack_frame_skeleton _ _ Hfr1)). }
    destruct (IH _ _ Hb1 Hnd2) as (h2 & Hrun2 & Hpost2).
    { intros x Hx. destruct (Hall x) as (L & HL & Ht); [apply elem_of_app; by right|].
      exists L. split; [|done]. destruct Hpost1 as (_ & _ & _ & Hout & _).
      rewrite Hout; [done|]. intros Hx1. by apply (Hdisj x). }
    exists h2. split.
    + simpl. by rewrite (run_bind_Return _ _ _ _ _ Hrun1).
    + simpl. by eapply untrack_post_trans.
Qed.

(** On a tree whose layers all have [torch_params], [_untrack_torch_params]
    returns and removes every one of them. *)
Lemma untrack_spec n l h ids :
  subtree n h l = Some ids → NoDup ids →
  (∀ x, x ∈ ids → tracked h x) →
  ∃ h', _untrack_torch_params n l h = Some (Return tt, h') ∧ untrack_post h h' ids.
Proof.
  revert l h ids. induction n as [|n IH]; intros l h ids Hsub Hnd Hall; [done|].
  apply subtree_unfold in Hsub as (L & below & HL & Hb & ->).
  apply NoDup_cons in Hnd as [Hl Hnd].
  rewrite untrack_unfold, (run_bind_Return _ _ _ _ _ (run_attr _ _ _ _ HL)).
  destruct (untrack_children n (_layers L) IH _ _ Hb Hnd) as (h1 & Hrun1 & Hpost1).
  { intros x Hx. apply Hall. apply elem_of_cons. by right. }
  rewrite (run_bind_Return _ _ _ _ _ Hrun1).
  pose proof Hpost1 as (Ht & Hs & Hp & Hout & Hin).
  assert (layers h1 !! l = Some L) as HL1 by (by rewrite Hout).
  destruct (Hall l) as (L' & HL' & Htr); [apply list_elem_of_here|].
  assert (L' = L) as -> by congruence.
  rewrite (run_delattr_present _ _ _ HL1 Htr).
  eexists. split; [done|].
  eapply untrack_post_proper;
    [|eapply (untrack_post_trans _ _ _ (mjoin below) [l]); [|exact Hpost1|]].
  - intros x. rewrite elem_of_app, !elem_of_cons, elem_of_nil. tauto.
  - intros x Hx ->%list_elem_of_singleton. done.
  - split_and!; simpl; try done.
    + intros x Hx. rewrite lookup_insert_ne; [done|].
      intros ->. apply Hx, list_elem_of_here.
    + intros x ->%list_elem_of_singleton. exists L. by rewrite lookup_insert_eq.
Qed.

(** ** The order of the snapshot *)

Lemma snapshot_intro h l L p hs :
  layers h !! l = Some L →
  Registry.get "torch_params" (_modules L) = Some (ParameterList p) →
  parameter_lists h !! p = Some hs →
  snapshot h l = Some hs.
Proof. intros HL Hm Hp. unfold snapshot, torch_params. rewrite HL. simpl. by rewrite Hm. Qed.

Lemma snapshot_expose h l L p hs :
  layers h !! l = Some (expose p L) → parameter_lists h !! p = Some hs →
  snapshot h l = Some hs.
Proof.
  intros HL Hp. eapply snapshot_intro; [exact HL| |exact Hp].
  simpl. apply Registry_get_set_eq.
Qed.




(** The snapshot does not depend on the order in which the tracker saw the
    variables: [a], [c], [b] and [c], [a], [b] give the same list. *)
Example track_order_irrelevant :
  let empty := mkHeap {[0 := mkLayer [] [] [] [mkSeedGenerator var_s] true []]} [] ∅ false in
  let after calls :=
    r ← for_each calls (invoke 1) empty; snapshot r.2 0 in
  after [Call_track_variable 0 var_a; Call_track_variable 0 var_c;
         Call_track_variable 0 var_b; Call_post_build 0] = Some [10; 11; 12; 13]
  ∧ after [Call_track_variable 0 var_c; Call_track_variable 0 var_a;
           Call_track_variable 0 var_b; Call_post_build 0] = Some [10; 11; 12; 13].
Proof. split; reflexivity. Qed.

(** ** Idempotence *)

Lemma track_noop n l h ids :
  subtree n h l = Some ids → (∀ x, x ∈ ids → tracked h x) →
  _track_torch_params n l h = Some (Return tt, h).
Proof.
  revert l h ids. induction n as [|n IH]; intros l h ids Hsub Hall; [done|].
  apply subtree_unfold in Hsub as (L & below & HL & Hb & ->).
  rewrite track_unfold, (run_bind_Return _ _ _ _ _ (run_attr _ _ _ _ HL)).
  assert (for_each (_layers L) (_track_torch_params n) h = Some (Return tt, h)) as Hloop.
  { assert (∀ x, x ∈ mjoin below → tracked h x) as Hall'.
    { intros x Hx. apply Hall, elem_of_cons. by right. }
    clear HL Hall. revert below Hb Hall'.
    induction (_layers L) as [|c cs IHcs]; intros below Hb Hall; [done|].
    apply Forall2_cons_inv_l in Hb as (cids & below' & Hc & Hb & ->).
    assert (_track_torch_params n c h = Some (Return tt, h)) as Hrun.
    { apply (IH _ _ _ Hc). intros x Hx. apply Hall. simpl. apply elem_of_app. by left. }
    simpl. rewrite (run_bind_Return _ _ _ _ _ Hrun).
    apply (IHcs below' Hb). intros x Hx. apply Hall. simpl. apply elem_of_app. by right. }
  rewrite (run_bind_Return _ _ _ _ _ Hloop).
  rewrite (run_bind_Return _ _ _ _ _ (run_tracked _ _ _ HL)).
  destruct (Hall l) as (L' & HL' & Ht); [apply list_elem_of_here|].
  assert (L' = L) as -> by congruence.
  by rewrite (bool_decide_eq_true_2 _ Ht).
Qed.

(** C5: a second [_track_torch_params] right after a first one changes
    nothing at all: it returns with the very same store, so no parameter
    list is built and [torch_params] is the object the first call stored. *)
Theorem track_torch_params_idempotent n h l ids :
  subtree n h l = Some ids →
  ∃ h', _track_torch_params n l h = Some (Return tt, h')
        ∧ tracked h' l
        ∧ _track_torch_params n l h' = Some (Return tt, h')
        ∧ ∀ h'', _track_torch_params n l h' = Some (Return tt, h'') →
                 torch_params h'' l = torch_params h' l
                 ∧ parameter_lists h'' = parameter_lists h'.
Proof.
  intros Hsub. destruct (track_spec _ _ _ _ Hsub) as (h' & Hrun & Hpost).
  assert (_track_torch_params n l h' = Some (Return tt, h')) as Hagain.
  { eapply track_noop.
    - by rewrite (subtree_skeleton _ _ _ _ (track_post_skeleton _ _ _ Hpost)).
    - by destruct Hpost as (_ & _ & _ & _ & Hin). }
  exists h'. split_and!; try done.
  - destruct Hpost as (_ & _ & _ & _ & Hin). apply Hin. by eapply subtree_root.
  - intros h'' Hrun'. rewrite Hagain in Hrun'. by injection Hrun' as <-.
Qed.

Lemma track_torch_params_idempotent_witness :
  ∃ h', _track_torch_params 2 0 sample_store = Some (Return tt, h')
        ∧ tracked h' 0
        ∧ _track_torch_params 2 0 h' = Some (Return tt, h')
        ∧ ∀ h'', _track_torch_params 2 0 h' = Some (Return tt, h'') →
                 torch_params h'' 0 = torch_params h' 0
                 ∧ parameter_lists h'' = parameter_lists h'.
Proof. exact (track_torch_params_idempotent 2 sample_store 0 [0; 1] eq_refl). Defined.

(** ** Rebuild on change *)

Lemma post_untrack_variable_eq n l v :
  _post_untrack_variable n l v = _post_track_variable n l v.
Proof. done. Qed.

(** The invalidate-then-rebuild of the variable hooks, on a tree whose layers
    all have [torch_params]. *)
Lemma rebuild_spec n l h ids :
  subtree n h l = Some ids → NoDup ids → (∀ x, x ∈ ids → tracked h x) →
  ∃ h1 h2,
    _untrack_torch_params n l h = Some (Return tt, h1)
    ∧ _track_torch_params n l h1 = Some (Return tt, h2)
    ∧ untrack_post h h1 ids ∧ track_post h1 h2 ids.
Proof.
  intros Hsub Hnd Hall.
  destruct (untrack_spec _ _ _ _ Hsub Hnd Hall) as (h1 & Hrun1 & Hpost1).
  assert (subtree n h1 l = Some ids) as Hsub1.
  { rewrite <-Hsub. apply subtree_skeleton, untrack_frame_skeleton.
    by eapply untrack_post_frame. }
  destruct (track_spec _ _ _ _ Hsub1) as (h2 & Hrun2 & Hpost2).
  by exists h1, h2.
Qed.

(** After the rebuild every layer of the tree holds a parameter list that did
    not exist before, with the handles it owns. *)
Lemma rebuild_layer h h1 h2 ids x L :
  untrack_post h h1 ids → track_post h1 h2 ids →
  x ∈ ids → layers h !! x = Some L →
  ∃ p, layers h2 !! x = Some (expose p (unexpose L))
       ∧ (length (parameter_lists h) ≤ p)%nat
       ∧ parameter_lists h2 !! p = Some (exposed_values L).
Proof.
  intros (_ & _ & Hp1 & _ & Hin1) (_ & _ & _ & Hl2 & Hin2) Hx HL.
  destruct (Hin1 x Hx) as (L' & HL' & HL1).
  assert (L' = L) as -> by congruence.
  destruct (Hl2 x) as [Hsame|(_ & L0 & p & HL0 & _ & HL2 & Hlen & Hp)].
  - destruct (Hin2 x Hx) as (L2 & HL2 & Ht). rewrite Hsame, HL1 in HL2.
    injection HL2 as <-. by apply tracked_layer_unexpose in Ht.
  - assert (L0 = unexpose L) as -> by congruence.
    exists p. rewrite Hp1 in Hlen. by rewrite exposed_values_unexpose in Hp.
Qed.

(** X1: on a layer that has a snapshot, in a tree whose layers all have one,
    [_post_track_variable] invalidates and rebuilds: [torch_params] becomes a
    parameter list that did not exist before, the old list object is left as
    it was, and the new list holds the handles of the layer's variables in
    partition order, so that the trainable variable at index [i] of its list
    is at position [i], the non-trainable one at index [j] is at position
    [length trainable + j], and the seed-generator state at index [k] is at
    position [length trainable + length non_trainable + k]. *)
Theorem post_track_variable_rebuilds n h l ids L old old_values v :
  subtree n h l = Some ids → NoDup ids → Forall (tracked h) ids →
  layers h !! l = Some L →
  Registry.get "torch_params" (_modules L) = Some (ParameterList old) →
  parameter_lists h !! old = Some old_values →
  ∃ h' new values,
    _post_track_variable n l v h = Some (Return tt, h')
    ∧ torch_params h' l = Some (ParameterList new)
    ∧ parameter_lists h !! new = None
    ∧ new ≠ old
    ∧ parameter_lists h' !! old = Some old_values
    ∧ parameter_lists h' !! new = Some values
    ∧ values = (value <$> _trainable_variables L)
               ++ (value <$> _non_trainable_variables L)
               ++ ((λ sg, value (state sg)) <$> _seed_generators L)
    ∧ keras_side h' = keras_side h
    ∧ (∀ i u, _trainable_variables L !! i = Some u → values !! i = Some (value u))
    ∧ (∀ j u, _non_trainable_variables L !! j = Some u →
              values !! (length (_trainable_variables L) + j) = Some (value u))
    ∧ (∀ k sg, _seed_generators L !! k = Some sg →
               values !! (length (_trainable_variables L)
                          + length (_non_trainable_variables L) + k)
               = Some (value (state sg))).
Proof.
  intros Hsub Hnd Hall HL Hold Hov. rewrite Forall_forall in Hall.
  destruct (rebuild_spec _ _ _ _ Hsub Hnd Hall) as (h1 & h2 & Hrun1 & Hrun2 & Hpost1 & Hpost2).
  destruct (rebuild_layer _ _ _ _ l L Hpost1 Hpost2 (subtree_root _ _ _ _ Hsub) HL)
    as (p & HL2 & Hlen & Hp).
  exists h2, p, (exposed_values L). split_and!.
  - unfold _post_track_variable.
    rewrite (run_bind_Return _ _ _ _ _ (run_tracked _ _ _ HL)).
    rewrite bool_decide_eq_true_2 by (by exists (ParameterList old)).
    by rewrite (run_bind_Return _ _ _ _ _ Hrun1).
  - unfold torch_params. rewrite HL2. simpl. apply Registry_get_set_eq.
  - by apply lookup_ge_None.
  - apply lookup_lt_Some in Hov. lia.
  - eapply track_post_parameter_lists; [exact Hpost2|].
    destruct Hpost1 as (_ & _ & -> & _). done.
  - done.
  - done.
  - rewrite (track_post_keras_side _ _ _ Hpost2).
    eapply untrack_frame_keras_side, untrack_post_frame; [exact Hall|exact Hpost1].
  - intros i u Hi. unfold exposed_values.
    apply lookup_app_l_Some. by rewrite list_lookup_fmap, Hi.
  - intros j u Hj. unfold exposed_values.
    rewrite lookup_app_r; rewrite length_fmap; [|lia].
    replace (length (_trainable_variables L) + j - length (_trainable_variables L)) with j by lia.
    apply lookup_app_l_Some. by rewrite list_lookup_fmap, Hj.
  - intros k sg Hk. unfold exposed_values.
    rewrite lookup_app_r; rewrite length_fmap; [|lia].
    rewrite lookup_app_r; rewrite length_fmap; [|lia].
    replace (length (_trainable_variables L) + length (_non_trainable_variables L) + k
             - length (_trainable_variables L) - length (_non_trainable_variables L))
      with k by lia.
    by rewrite list_lookup_fmap, Hk.
Qed.

Lemma post_track_variable_rebuilds_witness :
  ∃ h' new values,
    _post_track_variable 1 1 var_c sample_exposed = Some (Return tt, h')
    ∧ torch_params h' 1 = Some (ParameterList new)
    ∧ parameter_lists sample_exposed !! new = None
    ∧ new ≠ 0
    ∧ parameter_lists h' !! 0 = Some [10; 11; 12; 13]
    ∧ parameter_lists h' !! new = Some values
    ∧ values = [10; 11] ++ [12] ++ [13]
    ∧ keras_side h' = keras_side sample_exposed
    ∧ (∀ i u, [var_a; var_b] !! i = Some u → values !! i = Some (value u))
    ∧ (∀ j u, [var_c] !! j = Some u → values !! (2 + j) = Some (value u))
    ∧ (∀ k sg, [mkSeedGenerator var_s] !! k = Some sg →
               values !! (2 + 1 + k) = Some (value (state sg))).
Proof.
  refine (post_track_variable_rebuilds 1 sample_exposed 1 [1]
            (mkLayer [] [var_a; var_b] [var_c] [mkSeedGenerator var_s] true
               [("torch_params", ParameterList 0)])
            0 [10; 11; 12; 13] var_c eq_refl _ _ eq_refl eq_refl eq_refl).
  - by_evaluation.
  - by_evaluation.
Defined.

(** ** Shared handles *)

Lemma snapshot_assign hd data h l : snapshot (assign hd data h) l = snapshot h l.
Proof. done. Qed.

Lemma read_torch_param_assign h l i hs v data :
  snapshot h l = Some hs → hs !! i = Some (value v) →
  read_torch_param (assign (value v) data h) l i = Some data
  ∧ read_variable (assign (value v) data h) v = Some data.
Proof.
  intros Hs Hi. split.
  - unfold read_torch_param. rewrite snapshot_assign, Hs. simpl. rewrite Hi. simpl.
    apply lookup_insert_eq.
  - unfold read_variable. simpl. apply lookup_insert_eq.
Qed.

(** C9: the snapshot that [_track_torch_params] builds holds, at position
    [i], the very handle that the [i]-th variable (trainable, non-trainable,
    then seed-generator states) has as its value: no tensor is created or
    copied, a write through the handle is read back both through the variable
    and through the snapshot, and removing [torch_params] again, by [del] or
    by [_untrack_torch_params], leaves the variables and the tensors as they
    were. *)
Theorem snapshot_shares_handles n h l ids L :
  subtree n h l = Some ids →
  layers h !! l = Some L →
  ¬ tracked_layer L →
  ∃ h' hs,
    _track_torch_params n l h = Some (Return tt, h')
    ∧ snapshot h' l = Some hs
    ∧ tensors h' = tensors h
    ∧ keras_side h' = keras_side h
    ∧ length hs = length (_trainable_variables L ++ _non_trainable_variables L
                          ++ (state <$> _seed_generators L))
    ∧ (∀ i v, (_trainable_variables L ++ _non_trainable_variables L
               ++ (state <$> _seed_generators L)) !! i = Some v →
         hs !! i = Some (value v)
         ∧ ∀ data, read_torch_param (assign (value v) data h') l i = Some data
                   ∧ read_variable (assign (value v) data h') v = Some data)
    ∧ (∃ h'', delattr l "torch_params" h' = Some (Return tt, h'')
              ∧ ¬ tracked h'' l
              ∧ keras_side h'' = keras_side h ∧ tensors h'' = tensors h)
    ∧ (∃ o h'', _untrack_torch_params n l h' = Some (o, h'')
                ∧ keras_side h'' = keras_side h ∧ tensors h'' = tensors h).
Proof.
  intros Hsub HL Hn.
  destruct (track_spec _ _ _ _ Hsub) as (h' & Hrun & Hpost).
  pose proof Hpost as (Ht & _ & _ & Hl & Hin).
  assert (∃ p, layers h' !! l = Some (expose p L)
               ∧ parameter_lists h' !! p = Some (exposed_values L)) as (p & HL' & Hp).
  { destruct (Hl l) as [Hsame|(_ & L0 & p & HL0 & _ & HL' & _ & Hp)].
    - destruct (Hin l (subtree_root _ _ _ _ Hsub)) as (L' & HL' & Htr).
      rewrite Hsame, HL in HL'. injection HL' as <-. done.
    - assert (L0 = L) as -> by congruence. eauto. }
  assert (snapshot h' l = Some (exposed_values L)) as Hsnap by (by eapply snapshot_expose).
  assert (exposed_values L
          = value <$> (_trainable_variables L ++ _non_trainable_variables L
                       ++ (state <$> _seed_generators L))) as Hvals.
  { unfold exposed_values. by rewrite !fmap_app, <-list_fmap_compose. }
  exists h', (exposed_values L). split_and!; try done.
  - by eapply track_post_keras_side.
  - by rewrite Hvals, length_fmap.
  - intros i v Hi.
    assert (exposed_values L !! i = Some (value v)) as Hhd.
    { by rewrite Hvals, list_lookup_fmap, Hi. }
    split; [done|]. intros data. by eapply read_torch_param_assign.
  - rewrite (run_delattr_present _ _ _ HL' (tracked_layer_expose _ _)).
    eexists. split_and!; [done| | |done].
    + intros (L2 & HL2 & Htr). simpl in HL2. rewrite lookup_insert_eq in HL2.
      injection HL2 as <-. by apply tracked_layer_unexpose in Htr.
    + rewrite <-(track_post_keras_side _ _ _ Hpost). apply map_eq. intros x.
      rewrite !keras_side_lookup. simpl.
      destruct (decide (x = l)) as [->|Hne].
      * by rewrite lookup_insert_eq, HL'.
      * by rewrite lookup_insert_ne.
  - assert (subtree n h' l = Some ids) as Hsub'.
    { by rewrite (subtree_skeleton _ _ _ _ (track_post_skeleton _ _ _ Hpost)). }
    destruct (untrack_total _ _ _ _ Hsub') as (o & h'' & Hrun' & _ & Hfr).
    exists o, h''. split_and!; [done| |].
    + rewrite (untrack_frame_keras_side _ _ Hfr). by eapply track_post_keras_side.
    + destruct Hfr as (-> & _). done.
Qed.

Lemma snapshot_shares_handles_witness :
  ∃ h' hs,
    _track_torch_params 2 1 sample_store = Some (Return tt, h')
    ∧ snapshot h' 1 = Some hs
    ∧ tensors h' = tensors sample_store
    ∧ keras_side h' = keras_side sample_store
    ∧ length hs = 4
    ∧ (∀ i v, [var_a; var_b; var_c; var_s] !! i = Some v →
         hs !! i = Some (value v)
         ∧ ∀ data, read_torch_param (assign (value v) data h') 1 i = Some data
                   ∧ read_variable (assign (value v) data h') v = Some data)
    ∧ (∃ h'', delattr 1 "torch_params" h' = Some (Return tt, h'')
              ∧ ¬ tracked h'' 1
              ∧ keras_side h'' = keras_side sample_store
              ∧ tensors h'' = tensors sample_store)
    ∧ (∃ o h'', _untrack_torch_params 2 1 h' = Some (o, h'')
                ∧ keras_side h'' = keras_side sample_store
                ∧ tensors h'' = tensors sample_store).
Proof.
  refine (snapshot_shares_handles 2 sample_store 1 [1]
            (mkLayer [] [var_a; var_b] [var_c] [mkSeedGenerator var_s] true [])
            eq_refl eq_refl _).
  by_evaluation.
Defined.

(** ** [named_parameters] *)

Lemma named_parameters_tracked n l prefix recurse rd h L :
  layers h !! l = Some L → tracked_layer L →
  named_parameters n l prefix recurse rd h
  = Some (Return (the_iterator l prefix recurse rd), h).
Proof.
  intros HL Ht. unfold named_parameters.
  rewrite (run_bind_Return _ _ _ _ _ (run_tracked _ _ _ HL)).
  by rewrite (bool_decide_eq_true_2 _ Ht).
Qed.

Lemma named_parameters_not_built n l prefix recurse rd h L :
  layers h !! l = Some L → ¬ tracked_layer L → built L = false →
  named_parameters n l prefix recurse rd h
  = Some (Raise (RuntimeError not_built_message), h).
Proof.
  intros HL Hn Hb. unfold named_parameters.
  rewrite (run_bind_Return _ _ _ _ _ (run_tracked _ _ _ HL)).
  rewrite (bool_decide_eq_false_2 _ Hn).
  rewrite run_bind.
  by rewrite (run_bind_Return _ _ _ _ _ (run_attr _ _ _ _ HL)), Hb.
Qed.

Lemma named_parameters_lazy n l prefix recurse rd h L :
  layers h !! l = Some L → ¬ tracked_layer L → built L = true →
  named_parameters n l prefix recurse rd h
  = match _track_torch_params n l h with
    | Some (Return _, h') => Some (Return (the_iterator l prefix recurse rd), h')
    | Some (Raise e, h') => Some (Raise e, h')
    | None => None
    end.
Proof.
  intros HL Hn Hb. unfold named_parameters.
  rewrite (run_bind_Return _ _ _ _ _ (run_tracked _ _ _ HL)).
  rewrite (bool_decide_eq_false_2 _ Hn).
  rewrite run_bind.
  rewrite (run_bind_Return _ _ _ _ _ (run_attr _ _ _ _ HL)), Hb.
  destruct (_track_torch_params n l h) as [[[[]|e] h']|]; done.
Qed.

(** [_track_torch_params] has no [raise] and no [del]: it never ends with an
    exception. *)
Lemma track_never_raises n l h e h' :
  _track_torch_params n l h ≠ Some (Raise e, h').
Proof.
  revert l h h'. induction n as [|n IH]; intros l h h'; [done|].
  rewrite track_unfold, run_bind. unfold attr at 1.
  destruct (layers h !! l) as [L|] eqn:HL; [|done].
  rewrite run_bind.
  assert (∀ h h', for_each (_layers L) (_track_torch_params n) h ≠ Some (Raise e, h')) as Hloop.
  { clear -IH. induction (_layers L) as [|c cs IHcs]; intros h h'; [done|].
    simpl. rewrite run_bind.
    destruct (_track_torch_params n c h) as [[[[]|e1] h1]|] eqn:Hc; [apply IHcs| |done].
    intros [= -> ->]. by eapply IH. }
  destruct (for_each (_layers L) (_track_torch_params n) h) as [[[[]|e1] h1]|] eqn:Hl;
    [| |done].
  - unfold _torch_params_tracked, hasattr. rewrite !run_bind. unfold attr.
    destruct (layers h1 !! l) as [L1|] eqn:HL1; [|done].
    simpl. unfold mret, Py_ret.
    destruct (bool_decide _); [done|].
    rewrite !run_bind. rewrite HL1. rewrite !run_bind. rewrite HL1.
    rewrite !run_bind. rewrite HL1. cbv zeta. rewrite run_bind.
    unfold new_ParameterList, setattr, update_modules. simpl. by rewrite HL1.
  - intros [= -> ->]. by eapply Hloop.
Qed.

Lemma named_parameters_raise_inv n h l L prefix recurse rd e h' :
  layers h !! l = Some L →
  named_parameters n l prefix recurse rd h = Some (Raise e, h') →
  (¬ tracked_layer L ∧ built L = false)
  ∧ e = RuntimeError not_built_message ∧ h' = h.
Proof.
  intros HL Hrun.
  destruct (decide (tracked_layer L)) as [Ht|Hn].
  { by rewrite (named_parameters_tracked _ _ _ _ _ _ _ HL Ht) in Hrun. }
  destruct (built L) eqn:Hb.
  - rewrite (named_parameters_lazy _ _ _ _ _ _ _ HL Hn Hb) in Hrun.
    destruct (_track_torch_params n l h) as [[[[]|e1] h1]|] eqn:Htr; try done.
    by apply track_never_raises in Htr.
  - rewrite (named_parameters_not_built _ _ _ _ _ _ _ HL Hn Hb) in Hrun.
    by injection Hrun as <- <-.
Qed.

Lemma named_parameters_lazy_spec n h l L prefix recurse rd ids :
  layers h !! l = Some L → ¬ tracked_layer L → built L = true →
  subtree n h l = Some ids →
  ∃ h', named_parameters n l prefix recurse rd h
          = Some (Return (the_iterator l prefix recurse rd), h')
        ∧ _track_torch_params n l h = Some (Return tt, h')
        ∧ tracked h' l.
Proof.
  intros HL Hn Hb Hsub.
  destruct (track_spec _ _ _ _ Hsub) as (h' & Hrun & Hpost).
  exists h'. split_and!; [|done|].
  - by rewrite (named_parameters_lazy _ _ _ _ _ _ _ HL Hn Hb), Hrun.
  - destruct Hpost as (_ & _ & _ & _ & Hin). apply Hin. by eapply subtree_root.
Qed.

(** C3: [named_parameters] raises exactly when the layer has no
    [torch_params] and is not built, and what it raises is the error whose
    message asks whether [build()] was forgotten; on a built layer without
    [torch_params] it runs [_track_torch_params] and returns the iterator. *)
Theorem named_parameters_raises_iff n h l L prefix recurse rd :
  layers h !! l = Some L →
  ((∃ e h', named_parameters n l prefix recurse rd h = Some (Raise e, h'))
     ↔ ¬ tracked_layer L ∧ built L = false)
  ∧ (∀ e h', named_parameters n l prefix recurse rd h = Some (Raise e, h') →
       e = RuntimeError not_built_message ∧ h' = h)
  ∧ (∃ s, not_built_message = s +:+ "Did you forget to call build()?")
  ∧ (¬ tracked_layer L → built L = true →
     ∀ ids, subtree n h l = Some ids →
       ∃ h', named_parameters n l prefix recurse rd h
               = Some (Return (the_iterator l prefix recurse rd), h')
             ∧ _track_torch_params n l h = Some (Return tt, h')
             ∧ tracked h' l).
Proof.
  intros HL. split_and!.
  - split.
    + intros (e & h' & Hrun). by eapply named_parameters_raise_inv in Hrun as [? _].
    + intros [Hn Hb]. eexists _, _. by eapply named_parameters_not_built.
  - intros e h' Hrun. by eapply named_parameters_raise_inv in Hrun as [_ ?].
  - by exists "Torch parameters are not tracked yet and layer is not built. ".
  - intros Hn Hb ids Hsub. by eapply named_parameters_lazy_spec.
Qed.

Lemma named_parameters_raises_iff_witness :
  ((∃ e h', named_parameters 1 0 "" true true sample_unbuilt = Some (Raise e, h'))
     ↔ ¬ tracked_layer (mkLayer [] [] [] [] false []) ∧ false = false)
  ∧ (∀ e h', named_parameters 1 0 "" true true sample_unbuilt = Some (Raise e, h') →
       e = RuntimeError not_built_message ∧ h' = sample_unbuilt)
  ∧ (∃ s, not_built_message = s +:+ "Did you forget to call build()?")
  ∧ (¬ tracked_layer (mkLayer [] [] [] [] false []) → false = true →
     ∀ ids, subtree 1 sample_unbuilt 0 = Some ids →
       ∃ h', named_parameters 1 0 "" true true sample_unbuilt
               = Some (Return (the_iterator 0 "" true true), h')
             ∧ _track_torch_params 1 0 sample_unbuilt = Some (Return tt, h')
             ∧ tracked h' 0).
Proof.
  exact (named_parameters_raises_iff 1 sample_unbuilt 0
           (mkLayer [] [] [] [] false []) "" true true eq_refl).
Defined.

(** ** Finalizing inside a stateless scope *)

Lemma post_build_stateless n l h :
  stateless_scope h = true → _post_build n l h = Some (Return tt, h).
Proof. intros Hs. unfold _post_build. rewrite run_bind. simpl. by rewrite Hs. Qed.

Lemma post_build_stateful n l h :
  stateless_scope h = false → _post_build n l h = _track_torch_params n l h.
Proof. intros Hs. unfold _post_build. rewrite run_bind. simpl. by rewrite Hs. Qed.

(** C2, as stated, fails: a layer that was finalized (its [built] flag is
    set) while the stateless scope is active gets no snapshot from
    [_post_build], but the next [named_parameters] does not raise: it builds
    the snapshot and returns. *)
Lemma stateless_finalize_counterexample :
  stateless_scope sample_stateless = true
  ∧ (built <$> layers sample_stateless !! 0) = Some true
  ∧ _post_build 1 0 sample_stateless = Some (Return tt, sample_stateless)
  ∧ ¬ tracked sample_stateless 0
  ∧ (∃ h', named_parameters 1 0 "" true true sample_stateless
             = Some (Return (the_iterator 0 "" true true), h')
           ∧ snapshot h' 0 = Some [20])
  ∧ ¬ ∃ e h', named_parameters 1 0 "" true true sample_stateless = Some (Raise e, h').
Proof.
  split_and!; try reflexivity.
  - by_evaluation.
  - eexists. split; reflexivity.
  - intros (e & h' & H). vm_compute in H. discriminate.
Qed.

(** C2, amended: inside a stateless scope [_post_build] returns without
    touching the store, so no snapshot is created; a later
    [named_parameters] on that layer, still without a snapshot, raises the
    not-built error only if the layer's [built] flag is not set, and if the
    flag is set it builds the snapshot and returns. *)
Theorem post_build_stateless_scope n h l L prefix recurse rd :
  stateless_scope h = true →
  layers h !! l = Some L →
  ¬ tracked_layer L →
  _post_build n l h = Some (Return tt, h)
  ∧ ¬ tracked h l
  ∧ (built L = false →
       named_parameters n l prefix recurse rd h
       = Some (Raise (RuntimeError not_built_message), h))
  ∧ (built L = true → ∀ ids, subtree n h l = Some ids →
       ∃ h', named_parameters n l prefix recurse rd h
               = Some (Return (the_iterator l prefix recurse rd), h')
             ∧ tracked h' l).
Proof.
  intros Hs HL Hn. split_and!.
  - by apply post_build_stateless.
  - by eapply not_tracked.
  - intros Hb. by eapply named_parameters_not_built.
  - intros Hb ids Hsub.
    destruct (named_parameters_lazy_spec n h l L prefix recurse rd ids HL Hn Hb Hsub)
      as (h' & Hrun & _ & Ht). eauto.
Qed.

Lemma post_build_stateless_scope_witness :
  _post_build 1 0 sample_stateless = Some (Return tt, sample_stateless)
  ∧ ¬ tracked sample_stateless 0
  ∧ (true = false →
       named_parameters 1 0 "" true true sample_stateless
       = Some (Raise (RuntimeError not_built_message), sample_stateless))
  ∧ (true = true → ∀ ids, subtree 1 sample_stateless 0 = Some ids →
       ∃ h', named_parameters 1 0 "" true true sample_stateless
               = Some (Return (the_iterator 0 "" true true), h')
             ∧ tracked h' 0).
Proof.
  refine (post_build_stateless_scope 1 sample_stateless 0
            (mkLayer [] [var_w] [] [] true []) "" true true eq_refl eq_refl _).
  by_evaluation.
Defined.

(** ** Invalidation without a snapshot *)

Lemma post_track_variable_untracked n l v h L :
  layers h !! l = Some L → ¬ tracked_layer L →
  _post_track_variable n l v h = Some (Return tt, h).
Proof.
  intros HL Hn. unfold _post_track_variable.
  rewrite (run_bind_Return _ _ _ _ _ (run_tracked _ _ _ HL)).
  by rewrite (bool_decide_eq_false_2 _ Hn).
Qed.

(** X2: on a layer without [torch_params], [_untrack_torch_params] ends with
    the [AttributeError] of its unguarded [del] (having removed nothing but
    [torch_params] attributes below), while the callers in this file check
    first: [_post_track_variable] and [_post_untrack_variable] return without
    touching the store when the layer has no [torch_params]. *)
Theorem untrack_without_snapshot n h l ids L v :
  subtree n h l = Some ids →
  layers h !! l = Some L →
  ¬ tracked_layer L →
  (∃ h', _untrack_torch_params n l h = Some (Raise (AttributeError "torch_params"), h')
         ∧ untrack_frame h h')
  ∧ _post_track_variable n l v h = Some (Return tt, h)
  ∧ _post_untrack_variable n l v h = Some (Return tt, h).
Proof.
  intros Hsub HL Hn. split_and!.
  - eapply untrack_untracked_raises; [exact Hsub|]. by eapply not_tracked.
  - by eapply post_track_variable_untracked.
  - rewrite post_untrack_variable_eq. by eapply post_track_variable_untracked.
Qed.

Lemma untrack_without_snapshot_witness :
  (∃ h', _untrack_torch_params 2 0 sample_store
           = Some (Raise (AttributeError "torch_params"), h')
         ∧ untrack_frame sample_store h')
  ∧ _post_track_variable 2 0 var_w sample_store = Some (Return tt, sample_store)
  ∧ _post_untrack_variable 2 0 var_w sample_store = Some (Return tt, sample_store).
Proof.
  refine (untrack_without_snapshot 2 sample_store 0 [0; 1]
            (mkLayer [1] [var_w] [] [] true [("dense", SubLayer 1)]) var_w
            eq_refl eq_refl _).
  by_evaluation.
Defined.

(** ** The attribute-assignment hook *)

Lemma TorchModuleWrapper_neq v : TorchModuleWrapper v ≠ v.
Proof. induction v as [|v IH| |]; try done. intros [= H]. by apply IH. Qed.

(** C7, as stated, fails: inside a [TorchModuleWrapper], a torch module that
    is no layer, no wrapper, and is not assigned to [torch_params] is not
    wrapped. *)
Lemma setattr_hook_counterexample :
  let self := TorchModuleWrapper (TorchModule 0) in
  let value := TorchModule 0 in
  isinstance_Module value = true
  ∧ isinstance_Layer value = false
  ∧ isinstance_TorchModuleWrapper value = false
  ∧ "module" ≠ "torch_params"
  ∧ _setattr_hook self "module" value = ("module", value)
  ∧ _setattr_hook self "module" value ≠ ("module", TorchModuleWrapper value).
Proof. split_and!; done. Qed.

Lemma setattr_hook_eq self name value :
  _setattr_hook self name value
  = (name, if hook_wraps self name value then TorchModuleWrapper value else value).
Proof.
  unfold _setattr_hook, hook_wraps.
  by destruct (isinstance_Module value), (isinstance_Layer value),
    (bool_decide (name = "torch_params")), (isinstance_TorchModuleWrapper self).
Qed.

Lemma hook_wraps_spec self name value :
  hook_wraps self name value = true
  ↔ isinstance_Module value = true
    ∧ isinstance_Layer value = false
    ∧ name ≠ "torch_params"
    ∧ isinstance_TorchModuleWrapper self = false.
Proof.
  unfold hook_wraps.
  rewrite !andb_true_iff, !negb_true_iff, bool_decide_eq_false. tauto.
Qed.

(** C7, amended: the hook wraps the value in a [TorchModuleWrapper] exactly
    when the value is a torch module, is not a layer, the attribute is not
    [torch_params], and the layer that receives the assignment is not itself
    a [TorchModuleWrapper]; in every other case, and so for a value that is
    already a wrapper (a wrapper is a layer), the value passes through
    unchanged.  The name is never changed. *)
Theorem setattr_hook_wraps_iff self name value :
  (_setattr_hook self name value).1 = name
  ∧ ((_setattr_hook self name value).2 = TorchModuleWrapper value
     ↔ isinstance_Module value = true
       ∧ isinstance_Layer value = false
       ∧ name ≠ "torch_params"
       ∧ isinstance_TorchModuleWrapper self = false)
  ∧ ((_setattr_hook self name value).2 ≠ TorchModuleWrapper value →
     (_setattr_hook self name value).2 = value)
  ∧ (isinstance_TorchModuleWrapper value = true →
     _setattr_hook self name value = (name, value)).
Proof.
  rewrite setattr_hook_eq. simpl. rewrite <-hook_wraps_spec.
  destruct (hook_wraps self name value) eqn:Hw; split_and!; try done.
  - intros Hv. apply hook_wraps_spec in Hw as (_ & Hl & _). by destruct value.
  - split; [|done]. by intros ?%symmetry%TorchModuleWrapper_neq.
Qed.

(** ** The subtree invariant *)

Lemma tracked_skeleton_invariant h h' :
  skeleton h' = skeleton h → (∀ x, tracked h' x ↔ tracked h x) →
  subtree_invariant h → subtree_invariant h'.
Proof.
  intros Hsk Htr Hinv p P c HP Ht Hc.
  assert (Hl := f_equal (λ m, m !! p) Hsk). simpl in Hl.
  rewrite !skeleton_lookup, HP in Hl. simpl in Hl.
  destruct (layers h !! p) as [P0|] eqn:HP0; [|done].
  injection Hl as Hl.
  apply Htr. apply (Hinv p P0 c HP0); [|by rewrite <-Hl].
  destruct (proj1 (Htr p)) as (P0' & HP0' & Ht0); [by exists P|].
  congruence.
Qed.

(** Under the invariant, everything below a layer with [torch_params] has
    [torch_params]. *)
Lemma subtree_invariant_all n h l ids :
  subtree_invariant h → subtree n h l = Some ids → tracked h l →
  ∀ x, x ∈ ids → tracked h x.
Proof.
  intros Hinv. revert l ids. induction n as [|n IH]; intros l ids Hsub Ht x Hx; [done|].
  apply subtree_unfold in Hsub as (L & below & HL & Hb & ->).
  apply elem_of_cons in Hx as [->|Hx]; [done|].
  apply list_elem_of_join in Hx as (cids & Hx & Hc).
  apply list_elem_of_lookup in Hc as [i Hi].
  destruct (Forall2_lookup_r _ _ _ _ _ Hb Hi) as (c & Hci & Hsub).
  apply (IH _ _ Hsub); [|done].
  destruct Ht as (L' & HL' & Ht). assert (L' = L) as -> by congruence.
  apply (Hinv l L c HL Ht). apply list_elem_of_lookup. eauto.
Qed.

Lemma track_post_invariant n h h' l ids :
  subtree n h l = Some ids → track_post h h' ids →
  subtree_invariant h → subtree_invariant h'.
Proof.
  intros Hsub Hpost Hinv p P c HP Ht Hc.
  pose proof Hpost as (_ & _ & _ & Hl & Hin).
  destruct (Hl p) as [Hsame|(Hp & L & q & HL & _ & HL' & _)].
  - rewrite HP in Hsame. eapply track_post_tracked; [exact Hpost|].
    by apply (Hinv p P c).
  - assert (P = expose q L) as -> by congruence.
    apply Hin. by eapply (subtree_closed _ _ _ _ p L c Hsub).
Qed.

Lemma rebuild_tracked h h1 h2 ids :
  (∀ x, x ∈ ids → tracked h x) →
  untrack_post h h1 ids → track_post h1 h2 ids →
  ∀ x, tracked h2 x ↔ tracked h x.
Proof.
  intros Hall Hpost1 Hpost2 x.
  pose proof Hpost1 as (_ & _ & _ & Hout1 & _).
  pose proof Hpost2 as (_ & _ & _ & Hl2 & Hin2).
  destruct (decide (x ∈ ids)) as [Hx|Hx]; [split; auto|].
  destruct (Hl2 x) as [Hsame|(Hx' & _)]; [|done].
  unfold tracked. by rewrite Hsame, Hout1.
Qed.

Lemma update_layer_inv l f h o h' :
  update_layer l f h = Some (o, h') →
  ∃ L, layers h !! l = Some L ∧ o = Return tt
       ∧ h' = with_layers (<[l := f L]> (layers h)) h.
Proof.
  unfold update_layer. destruct (layers h !! l) as [L|]; [|done].
  intros [= <- <-]. eauto.
Qed.

Lemma verbatim_track_post h h' ids x :
  track_post h h' ids → verbatim h x → verbatim h' x.
Proof.
  intros Hpost Hv. pose proof Hpost as (_ & _ & _ & Hl & _). unfold verbatim in *.
  destruct (Hl x) as [Hsame|(_ & L & p & HL & _ & HL' & _ & Hp)].
  - rewrite Hsame. destruct (layers h !! x) as [L|]; [|done].
    destruct (Registry.get "torch_params" (_modules L)) as [[|p]|]; try done.
    by eapply track_post_parameter_lists.
  - rewrite HL'. simpl. by rewrite Registry_get_set_eq.
Qed.

Lemma verbatim_untrack_frame h h' x :
  untrack_frame h h' → verbatim h x → verbatim h' x.
Proof.
  intros (_ & _ & Hp & Hl) Hv. unfold verbatim in *.
  destruct (Hl x) as [Hsame|(L & HL & _ & HL')].
  - rewrite Hsame. destruct (layers h !! x) as [L|]; [|done].
    destruct (Registry.get "torch_params" (_modules L)) as [[|p]|]; try done.
    by rewrite Hp.
  - rewrite HL'. simpl. unfold other_modules. by rewrite Registry_get_del_eq.
Qed.

Lemma verbatim_untracked h x L :
  layers h !! x = Some L → ¬ tracked_layer L → verbatim h x.
Proof.
  intros HL Hn%not_tracked_layer. unfold verbatim. by rewrite HL, Hn.
Qed.

Section Lifecycle.

Variable n : nat.
Variable h0 : Heap.
Hypothesis Htree : tree_shaped n h0 = true.

Abbreviation good := (lifecycle_invariant h0).

Lemma good_tree h l L :
  skeleton h = skeleton h0 → layers h !! l = Some L →
  ∃ ids, subtree n h l = Some ids ∧ NoDup ids.
Proof using Htree.
  intros Hsk HL.
  assert (Hl := f_equal (λ m, m !! l) Hsk). simpl in Hl.
  rewrite !skeleton_lookup, HL in Hl. simpl in Hl.
  destruct (layers h0 !! l) as [L0|] eqn:HL0; [|done].
  apply bool_decide_eq_true in Htree.
  specialize (Htree l L0 HL0). simpl in Htree. unfold tree_below in Htree.
  rewrite (subtree_skeleton _ _ _ _ Hsk).
  destruct (subtree n h0 l) as [ids|]; [|done]. eauto.
Qed.

Lemma good_track h l o h' :
  good h → _track_torch_params n l h = Some (o, h') → good h'.
Proof using Htree.
  intros (Hsk & Hinv & Hv) Hrun.
  destruct (layers h !! l) as [L|] eqn:HL.
  - destruct (good_tree _ _ _ Hsk HL) as (ids & Hsub & _).
    destruct (track_spec _ _ _ _ Hsub) as (h1 & Hrun1 & Hpost).
    rewrite Hrun1 in Hrun. injection Hrun as <- <-. split_and!.
    + by rewrite (track_post_skeleton _ _ _ Hpost).
    + by eapply track_post_invariant.
    + intros x. by eapply verbatim_track_post.
  - destruct n; [done|]. rewrite track_unfold, run_bind in Hrun.
    unfold attr in Hrun. by rewrite HL in Hrun.
Qed.

Lemma good_post_track_variable h l v o h' :
  pending_invariant h0 l h → _post_track_variable n l v h = Some (o, h') → good h'.
Proof using Htree.
  intros (Hsk & Hinv & Hv) Hrun. unfold _post_track_variable in Hrun.
  rewrite run_bind in Hrun. unfold _torch_params_tracked, hasattr in Hrun.
  rewrite run_bind in Hrun. unfold attr in Hrun.
  destruct (layers h !! l) as [L|] eqn:HL; [|done].
  simpl in Hrun. unfold mret, Py_ret in Hrun.
  case_bool_decide as Ht.
  2:{ injection Hrun as <- <-. split_and!; try done. intros x.
      destruct (decide (x = l)) as [->|Hne]; [|by apply Hv].
      by eapply verbatim_untracked. }
  destruct (good_tree _ _ _ Hsk HL) as (ids & Hsub & Hnd).
  assert (∀ x, x ∈ ids → tracked h x) as Hall.
  { eapply subtree_invariant_all; [done|done|]. by exists L. }
  destruct (rebuild_spec _ _ _ _ Hsub Hnd Hall) as (h1 & h2 & Hrun1 & Hrun2 & Hpost1 & Hpost2).
  rewrite (run_bind_Return _ _ _ _ _ Hrun1), Hrun2 in Hrun.
  injection Hrun as <- <-.
  assert (untrack_frame h h1) as Hfr by (by eapply untrack_post_frame).
  assert (skeleton h2 = skeleton h) as Hsk2.
  { rewrite (track_post_skeleton _ _ _ Hpost2). by eapply untrack_frame_skeleton. }
  split_and!; [congruence| |].
  - eapply tracked_skeleton_invariant; [exact Hsk2| |exact Hinv].
    by eapply rebuild_tracked.
  - intros x. eapply verbatim_track_post; [exact Hpost2|].
    destruct (decide (x = l)) as [->|Hne].
    + destruct Hpost1 as (_ & _ & _ & _ & Hin).
      destruct (Hin l (subtree_root _ _ _ _ Hsub)) as (L' & _ & HL1).
      eapply verbatim_untracked; [exact HL1|apply tracked_layer_unexpose].
    + eapply verbatim_untrack_frame; [exact Hfr|]. by apply Hv.
Qed.

Lemma good_pending h l : good h → pending_invariant h0 l h.
Proof. intros (Hsk & Hinv & Hv). split_and!; auto. Qed.

Lemma good_update_layer h l f o h' :
  (∀ L, _layers (f L) = _layers L ∧ _modules (f L) = _modules L) →
  good h → update_layer l f h = Some (o, h') →
  pending_invariant h0 l h' ∧ o = Return tt.
Proof.
  intros Hf (Hsk & Hinv & Hv) (L & HL & -> & ->)%update_layer_inv. split; [|done].
  assert (skeleton (with_layers (<[l:=f L]> (layers h)) h) = skeleton h) as Hsk'.
  { apply map_eq. intros x. rewrite !skeleton_lookup. simpl.
    destruct (decide (x = l)) as [->|Hne].
    - rewrite lookup_insert_eq, HL. simpl. f_equal. apply Hf.
    - by rewrite lookup_insert_ne. }
  split_and!; [congruence| |].
  - eapply tracked_skeleton_invariant; [exact Hsk'| |exact Hinv].
    intros x. unfold tracked. simpl.
    destruct (decide (x = l)) as [->|Hne].
    + rewrite lookup_insert_eq, HL. unfold tracked_layer.
      split; intros (L' & [= <-] & Ht); eexists; (split; [done|]).
      * by rewrite <-(proj2 (Hf L)).
      * by rewrite (proj2 (Hf L)).
    + by rewrite lookup_insert_ne.
  - intros x Hne. specialize (Hv x). unfold verbatim in *. simpl.
    by rewrite lookup_insert_ne.
Qed.

Lemma good_invoke h c o h' :
  lifecycle_call c → good h → invoke n c h = Some (o, h') → good h'.
Proof using Htree.
  intros Hc Hgood Hrun. destruct c as [l|l|l|l v|l v|l v|l v|l prefix recurse rd];
    simpl in Hrun; try done.
  - destruct (stateless_scope h) eqn:Hs.
    + rewrite post_build_stateless in Hrun by done. by injection Hrun as <- <-.
    + rewrite post_build_stateful in Hrun by done. by eapply good_track.
  - by eapply good_track.
  - eapply good_post_track_variable; [|exact Hrun]. by apply good_pending.
  - rewrite post_untrack_variable_eq in Hrun.
    eapply good_post_track_variable; [|exact Hrun]. by apply good_pending.
  - unfold _track_variable in Hrun. rewrite run_bind in Hrun.
    destruct (update_layer _ _ h) as [[o1 h1]|] eqn:Hup; [|done].
    apply good_update_layer in Hup as [Hgood1 ->]; [|by intros L; destruct (trainable v)|done].
    by eapply good_post_track_variable.
  - unfold _untrack_variable in Hrun. rewrite run_bind in Hrun.
    destruct (update_layer _ _ h) as [[o1 h1]|] eqn:Hup; [|done].
    apply good_update_layer in Hup as [Hgood1 ->]; [|done|done].
    rewrite post_untrack_variable_eq in Hrun. by eapply good_post_track_variable.
  - rewrite run_bind in Hrun.
    destruct (named_parameters n l prefix recurse rd h) as [[[it|e] h1]|] eqn:Hnp; [| |done].
    + injection Hrun as <- <-.
      unfold named_parameters in Hnp. rewrite run_bind in Hnp.
      unfold _torch_params_tracked, hasattr in Hnp.
      rewrite run_bind in Hnp. unfold attr at 1 in Hnp.
      destruct (layers h !! l) as [L|] eqn:HL; [|done].
      simpl in Hnp. unfold mret, Py_ret in Hnp.
      case_bool_decide as Ht; [by injection Hnp as <- <-|].
      rewrite !run_bind in Hnp. unfold attr in Hnp. rewrite HL in Hnp.
      destruct (built L); [|done].
      destruct (_track_torch_params n l h) as [[[[]|e] h2]|] eqn:Htr; [|done|done].
      injection Hnp as <- <-. by eapply good_track.
    + injection Hrun as <- <-.
      destruct (layers h !! l) as [L|] eqn:HL.
      * by destruct (named_parameters_raise_inv _ _ _ _ _ _ _ _ _ HL Hnp) as (_ & _ & ->).
      * unfold named_parameters in Hnp. rewrite run_bind in Hnp.
        unfold _torch_params_tracked, hasattr in Hnp.
        rewrite run_bind in Hnp. unfold attr at 1 in Hnp. by rewrite HL in Hnp.
Qed.

Lemma good_reachable h :
  snapshot_free h0 = true → reachable n lifecycle_call h0 h → good h.
Proof using Htree.
  intros Hfree. apply bool_decide_eq_true in Hfree.
  induction 1 as [|h c o h' _ IH Hc Hrun].
  - split_and!; [done| |].
    + intros p P c HP [m Hm] _. specialize (Hfree p P HP). simpl in Hfree. congruence.
    + intros x. unfold verbatim. destruct (layers h0 !! x) as [L|] eqn:HL; [|done].
      by rewrite (Hfree x L HL).
  - by eapply good_invoke.
Qed.

(** No lifecycle call ends with an exception. *)
Lemma good_no_exception h c e h' :
  lifecycle_call c → good h → invoke n c h = Some (Raise e, h') →
  ∃ l prefix recurse rd,
    c = Call_named_parameters l prefix recurse rd ∧ e = RuntimeError not_built_message.
Proof using Htree.
  intros Hc (Hsk & Hinv & Hv) Hrun.
  assert (∀ l v h, pending_invariant h0 l h →
            _post_track_variable n l v h ≠ Some (Raise e, h')) as Hhook.
  { clear h Hsk Hinv Hv Hrun. intros l v h (Hsk & Hinv & Hv) Hrun.
    unfold _post_track_variable in Hrun.
    rewrite run_bind in Hrun. unfold _torch_params_tracked, hasattr in Hrun.
    rewrite run_bind in Hrun. unfold attr in Hrun.
    destruct (layers h !! l) as [L|] eqn:HL; [|done].
    simpl in Hrun. unfold mret, Py_ret in Hrun.
    case_bool_decide as Ht; [|done].
    destruct (good_tree _ _ _ Hsk HL) as (ids & Hsub & Hnd).
    assert (∀ x, x ∈ ids → tracked h x) as Hall.
    { eapply subtree_invariant_all; [done|done|]. by exists L. }
    destruct (rebuild_spec _ _ _ _ Hsub Hnd Hall) as (h1 & h2 & Hrun1 & Hrun2 & _).
    by rewrite (run_bind_Return _ _ _ _ _ Hrun1), Hrun2 in Hrun. }
  destruct c as [l|l|l|l v|l v|l v|l v|l prefix recurse rd]; simpl in Hrun; try done.
  - destruct (stateless_scope h) eqn:Hs.
    + by rewrite post_build_stateless in Hrun.
    + rewrite post_build_stateful in Hrun by done. by apply track_never_raises in Hrun.
  - by apply track_never_raises in Hrun.
  - exfalso. eapply Hhook; [|exact Hrun]. split_and!; auto.
  - exfalso. rewrite post_untrack_variable_eq in Hrun.
    eapply Hhook; [|exact Hrun]. split_and!; auto.
  - exfalso. unfold _track_variable in Hrun. rewrite run_bind in Hrun.
    destruct (update_layer _ _ h) as [[o1 h1]|] eqn:Hup; [|done].
    apply good_update_layer in Hup as [Hgood1 ->];
      [|by intros L; destruct (trainable v)|by split_and!].
    by eapply Hhook.
  - exfalso. unfold _untrack_variable in Hrun. rewrite run_bind in Hrun.
    destruct (update_layer _ _ h) as [[o1 h1]|] eqn:Hup; [|done].
    apply good_update_layer in Hup as [Hgood1 ->]; [|done|by split_and!].
    rewrite post_untrack_variable_eq in Hrun. by eapply Hhook.
  - exists l, prefix, recurse, rd. split; [done|].
    rewrite run_bind in Hrun.
    destruct (named_parameters n l prefix recurse rd h) as [[[it|e1] h1]|] eqn:Hnp;
      [done| |done].
    injection Hrun as -> ->.
    destruct (layers h !! l) as [L|] eqn:HL.
    + by destruct (named_parameters_raise_inv _ _ _ _ _ _ _ _ _ HL Hnp) as (_ & -> & _).
    + unfold named_parameters in Hnp. rewrite run_bind in Hnp.
      unfold _torch_params_tracked, hasattr in Hnp.
      rewrite run_bind in Hnp. unfold attr at 1 in Hnp. by rewrite HL in Hnp.
Qed.

End Lifecycle.

(** C10, as stated, fails: [_track_torch_params] on the parent followed by a
    bare [_untrack_torch_params] on its child leaves the parent with
    [torch_params] and the child without, and then the child-first deletion
    from the parent raises. *)
Lemma subtree_invariant_counterexample :
  snapshot_free sample_store = true
  ∧ reachable 2 adapter_call sample_store sample_child_untracked
  ∧ ¬ subtree_invariant sample_child_untracked
  ∧ tracked sample_child_untracked 0
  ∧ _untrack_torch_params 2 0 sample_child_untracked
    = Some (Raise (AttributeError "torch_params"), sample_child_untracked).
Proof.
  split_and!; [reflexivity| | |by_evaluation|reflexivity].
  - apply (reachable_step _ _ _ sample_exposed (Call_untrack_torch_params 1) (Return tt));
      [|exact I|reflexivity].
    apply (reachable_step _ _ _ sample_store (Call_track_torch_params 0) (Return tt));
      [|exact I|reflexivity].
    apply reachable_init.
  - intros Hinv.
    assert (tracked sample_child_untracked 1) as Ht.
    { eapply (Hinv 0 _ 1); [reflexivity|by_evaluation|by_evaluation]. }
    revert Ht. by_evaluation.
Qed.

(** C10, amended: start from a store without any [torch_params] in which the
    layers form trees, and let any calls run except a bare
    [_untrack_torch_params] (so that invalidation happens only inside the
    guarded untrack-then-track of the variable hooks).  Then in every store
    that is reached, a layer with [torch_params] has only children with
    [torch_params], hence so has everything below it, and
    [_untrack_torch_params] on such a layer returns without an error. *)
Theorem subtree_invariant_reachable n h0 h :
  snapshot_free h0 = true →
  tree_shaped n h0 = true →
  reachable n lifecycle_call h0 h →
  subtree_invariant h
  ∧ ∀ l, tracked h l →
      ∃ ids h', subtree n h l = Some ids
                ∧ Forall (tracked h) ids
                ∧ _untrack_torch_params n l h = Some (Return tt, h')
                ∧ Forall (λ x, ¬ tracked h' x) ids.
Proof.
  intros Hfree Htree Hreach.
  destruct (good_reachable n h0 Htree h Hfree Hreach) as (Hsk & Hinv & _).
  split; [done|]. intros l Ht.
  pose proof Ht as (L & HL & _).
  destruct (good_tree n h0 Htree _ _ _ Hsk HL) as (ids & Hsub & Hnd).
  assert (∀ x, x ∈ ids → tracked h x) as Hall.
  { by eapply subtree_invariant_all. }
  destruct (untrack_spec _ _ _ _ Hsub Hnd Hall) as (h' & Hrun & Hpost).
  exists ids, h'. split_and!; [done|by apply Forall_forall|done|].
  apply Forall_forall. intros x Hx (L' & HL' & Ht').
  destruct Hpost as (_ & _ & _ & _ & Hin).
  destruct (Hin x Hx) as (Lx & _ & HLx).
  rewrite HL' in HLx. injection HLx as ->. by apply tracked_layer_unexpose in Ht'.
Qed.

(** X3: in every store reached from a snapshot-free store whose layers form
    trees, by any calls except a bare [_untrack_torch_params], the snapshot of
    a layer lists what the layer owns at that moment: trainable,
    non-trainable, seed-generator states, in list order. *)
Theorem lifecycle_snapshots_verbatim n h0 h l L :
  snapshot_free h0 = true →
  tree_shaped n h0 = true →
  reachable n lifecycle_call h0 h →
  layers h !! l = Some L →
  tracked_layer L →
  snapshot h l = Some (exposed_values L).
Proof.
  intros Hfree Htree Hreach HL [m Hm].
  destruct (good_reachable n h0 Htree h Hfree Hreach) as (_ & _ & Hv).
  specialize (Hv l). unfold verbatim in Hv. rewrite HL, Hm in Hv.
  destruct m as [|p]; [done|]. by eapply snapshot_intro.
Qed.

(** X4: in every store reached from a snapshot-free store whose layers form
    trees, by any calls except a bare [_untrack_torch_params], the only
    exception a further such call can end with is the not-built error of
    [named_parameters]; no [del] ever meets a missing attribute. *)
Theorem lifecycle_raises_only_not_built n h0 h c e h' :
  snapshot_free h0 = true →
  tree_shaped n h0 = true →
  reachable n lifecycle_call h0 h →
  lifecycle_call c →
  invoke n c h = Some (Raise e, h') →
  e = RuntimeError not_built_message.
Proof.
  intros Hfree Htree Hreach Hc Hrun.
  pose proof (good_reachable n h0 Htree h Hfree Hreach) as Hgood.
  by destruct (good_no_exception n h0 Htree h c e h' Hc Hgood Hrun)
    as (? & ? & ? & ? & _ & ->).
Qed.

Lemma subtree_invariant_reachable_witness :
  subtree_invariant sample_exposed
  ∧ ∀ l, tracked sample_exposed l →
      ∃ ids h', subtree 2 sample_exposed l = Some ids
                ∧ Forall (tracked sample_exposed) ids
                ∧ _untrack_torch_params 2 l sample_exposed = Some (Return tt, h')
                ∧ Forall (λ x, ¬ tracked h' x) ids.
Proof.
  refine (subtree_invariant_reachable 2 sample_store sample_exposed eq_refl eq_refl _).
  apply (reachable_step _ _ _ sample_store (Call_post_build 0) (Return tt));
    [|exact I|reflexivity].
  apply reachable_init.
Defined.

Lemma lifecycle_snapshots_verbatim_witness :
  snapshot sample_exposed 1 = Some [10; 11; 12; 13].
Proof.
  refine (lifecycle_snapshots_verbatim 2 sample_store sample_exposed 1
            (mkLayer [] [var_a; var_b] [var_c] [mkSeedGenerator var_s] true
               [("torch_params", ParameterList 0)])
            eq_refl eq_refl _ eq_refl _).
  - apply (reachable_step _ _ _ sample_store (Call_post_build 0) (Return tt));
      [|exact I|reflexivity].
    apply reachable_init.
  - by_evaluation.
Defined.

Lemma lifecycle_raises_only_not_built_witness :
  RuntimeError not_built_message = RuntimeError not_built_message.
Proof.
  exact (lifecycle_raises_only_not_built 1 sample_unbuilt sample_unbuilt
           (Call_named_parameters 0 "" true true)
           (RuntimeError not_built_message) sample_unbuilt
           eq_refl eq_refl (reachable_init _ _ _) I eq_refl).
Defined.

(** ** Two runs side by side *)

Lemma module_sim_mono a1 a2 new1 new2 m1 m2 :
  module_sim a1 a2 m1 m2 → module_sim (a1 ++ new1) (a2 ++ new2) m1 m2.
Proof.
  unfold module_sim. destruct m1 as [l1|p1], m2 as [l2|p2]; try done.
  destruct (a1 !! p1) as [hs1|] eqn:H1; [|done].
  destruct (a2 !! p2) as [hs2|] eqn:H2; [|done].
  intros ->. by rewrite (lookup_app_l_Some _ _ _ _ H1), (lookup_app_l_Some _ _ _ _ H2).
Qed.

Lemma layer_sim_mono a1 a2 new1 new2 L1 L2 :
  layer_sim a1 a2 L1 L2 → layer_sim (a1 ++ new1) (a2 ++ new2) L1 L2.
Proof.
  intros [Hk Hm]. split; [done|].
  eapply Forall2_impl; [exact Hm|]. intros e1 e2 [Hn Hs].
  split; [done|]. by apply module_sim_mono.
Qed.

Lemma heap_sim_lookup h1 h2 l :
  heap_sim h1 h2 →
  match layers h1 !! l, layers h2 !! l with
  | Some L1, Some L2 => layer_sim (parameter_lists h1) (parameter_lists h2) L1 L2
  | None, None => True
  | _, _ => False
  end.
Proof.
  intros (_ & _ & Hl). specialize (Hl l).
  by destruct (layers h1 !! l), (layers h2 !! l).
Qed.

Lemma registry_get_sim a1 a2 name ms1 ms2 :
  Forall2 (entry_sim a1 a2) ms1 ms2 →
  match Registry.get name ms1, Registry.get name ms2 with
  | Some m1, Some m2 => module_sim a1 a2 m1 m2
  | None, None => True
  | _, _ => False
  end.
Proof.
  induction 1 as [|[k1 m1] [k2 m2] ms1 ms2 [Hk Hm] _ IH]; simpl; [done|].
  simpl in Hk. subst k2. by destruct (decide (k1 = name)).
Qed.

Lemma registry_set_sim a1 a2 name m1 m2 ms1 ms2 :
  module_sim a1 a2 m1 m2 →
  Forall2 (entry_sim a1 a2) ms1 ms2 →
  Forall2 (entry_sim a1 a2) (Registry.set name m1 ms1) (Registry.set name m2 ms2).
Proof.
  intros Hm. induction 1 as [|[k1 m1'] [k2 m2'] ms1 ms2 [Hk Hm'] Hrest IH]; simpl.
  - by repeat constructor.
  - simpl in Hk. subst k2. destruct (decide (k1 = name)).
    + by repeat constructor.
    + by repeat constructor.
Qed.

Lemma registry_del_sim a1 a2 name ms1 ms2 :
  Forall2 (entry_sim a1 a2) ms1 ms2 →
  Forall2 (entry_sim a1 a2) (Registry.del name ms1) (Registry.del name ms2).
Proof.
  induction 1 as [|[k1 m1'] [k2 m2'] ms1 ms2 [Hk Hm'] Hrest IH]; simpl; [done|].
  simpl in Hk. subst k2. destruct (decide (k1 = name)); [done|].
  by repeat constructor.
Qed.

(** Replacing one layer on both sides. *)
Lemma heap_sim_insert h1 h2 l L1 L2 :
  heap_sim h1 h2 →
  layer_sim (parameter_lists h1) (parameter_lists h2) L1 L2 →
  heap_sim (with_layers (<[l := L1]> (layers h1)) h1)
           (with_layers (<[l := L2]> (layers h2)) h2).
Proof.
  intros (Ht & Hs & Hl) HL. split_and!; simpl; try done.
  intros x. destruct (decide (x = l)) as [->|Hne].
  - by rewrite !lookup_insert_eq.
  - rewrite !lookup_insert_ne by done. apply Hl.
Qed.

(** Allocating on both sides. *)
Lemma heap_sim_alloc h1 h2 new1 new2 :
  heap_sim h1 h2 →
  heap_sim (with_parameter_lists (parameter_lists h1 ++ new1) h1)
           (with_parameter_lists (parameter_lists h2 ++ new2) h2).
Proof.
  intros (Ht & Hs & Hl). split_and!; simpl; try done.
  intros x. specialize (Hl x). simpl in Hl.
  destruct (layers h1 !! x), (layers h2 !! x); simpl in *; try done.
  by apply layer_sim_mono.
Qed.

Lemma sim_bind {A B} (R : Heap → Heap → A → A → Prop)
    (S : Heap → Heap → B → B → Prop) (m1 m2 : Py A) (k1 k2 : A → Py B) h1 h2 :
  outcome_sim R (m1 h1) (m2 h2) →
  (∀ a1 a2 h1' h2', heap_sim h1' h2' → R h1' h2' a1 a2 →
     outcome_sim S (k1 a1 h1') (k2 a2 h2')) →
  outcome_sim S ((m1 ≫= k1) h1) ((m2 ≫= k2) h2).
Proof.
  intros Hm Hk. rewrite !run_bind.
  destruct (m1 h1) as [[[a1|e1] h1']|], (m2 h2) as [[[a2|e2] h2']|]; simpl in *;
    try done.
  destruct Hm. by apply Hk.
Qed.

Lemma sim_ret {A} (R : Heap → Heap → A → A → Prop) a1 a2 h1 h2 :
  heap_sim h1 h2 → R h1 h2 a1 a2 →
  outcome_sim R ((mret a1 : Py A) h1) ((mret a2 : Py A) h2).
Proof. by split. Qed.

Lemma sim_attr {A} (f : Layer → A) l h1 h2 :
  (∀ L1 L2, with_modules [] L1 = with_modules [] L2 → f L1 = f L2) →
  heap_sim h1 h2 →
  outcome_sim same_value (attr f l h1) (attr f l h2).
Proof.
  intros Hf Hsim. pose proof (heap_sim_lookup _ _ l Hsim) as Hl. unfold attr.
  destruct (layers h1 !! l) as [L1|], (layers h2 !! l) as [L2|]; try done.
  split; [done|]. apply Hf, Hl.
Qed.

Lemma sim_tracked l h1 h2 :
  heap_sim h1 h2 →
  outcome_sim same_value (_torch_params_tracked l h1) (_torch_params_tracked l h2).
Proof.
  intros Hsim. pose proof (heap_sim_lookup _ _ l Hsim) as Hl.
  unfold _torch_params_tracked, hasattr. rewrite !run_bind. unfold attr.
  destruct (layers h1 !! l) as [L1|], (layers h2 !! l) as [L2|]; try done.
  split; [done|]. unfold same_value. destruct Hl as [_ Hm].
  pose proof (registry_get_sim _ _ "torch_params" _ _ Hm) as Hg.
  destruct (Registry.get "torch_params" (_modules L1)),
    (Registry.get "torch_params" (_modules L2)); done.
Qed.

Lemma sim_setattr l name m1 m2 h1 h2 :
  heap_sim h1 h2 → same_module h1 h2 m1 m2 →
  outcome_sim (λ _ _ _ _, True) (setattr l name m1 h1) (setattr l name m2 h2).
Proof.
  intros Hsim Hm. pose proof (heap_sim_lookup _ _ l Hsim) as Hl.
  unfold setattr, update_modules.
  destruct (layers h1 !! l) as [L1|], (layers h2 !! l) as [L2|]; try done.
  split; [|done]. apply heap_sim_insert; [done|].
  destruct Hl as [Hk Hms]. split; [done|]. simpl. by apply registry_set_sim.
Qed.

Lemma sim_delattr l name h1 h2 :
  heap_sim h1 h2 →
  outcome_sim (λ _ _ _ _, True) (delattr l name h1) (delattr l name h2).
Proof.
  intros Hsim. pose proof (heap_sim_lookup _ _ l Hsim) as Hl.
  unfold delattr. rewrite !run_bind. unfold attr.
  destruct (layers h1 !! l) as [L1|] eqn:HL1, (layers h2 !! l) as [L2|] eqn:HL2;
    try done.
  destruct Hl as [Hk Hms].
  pose proof (registry_get_sim _ _ name _ _ Hms) as Hg.
  destruct (Registry.get name (_modules L1)), (Registry.get name (_modules L2));
    try done.
  unfold update_modules. rewrite HL1, HL2.
  split; [|done]. apply heap_sim_insert; [done|].
  split; [done|]. simpl. by apply registry_del_sim.
Qed.

Lemma sim_new_ParameterList values h1 h2 :
  heap_sim h1 h2 →
  outcome_sim (λ h1' h2' p1 p2, same_module h1' h2' (ParameterList p1) (ParameterList p2))
    (new_ParameterList values h1) (new_ParameterList values h2).
Proof.
  intros Hsim. split; [by apply heap_sim_alloc|].
  unfold same_module, module_sim. simpl. by rewrite !list_lookup_middle.
Qed.

Lemma sim_update_layer l f h1 h2 :
  (∀ a1 a2 L1 L2, layer_sim a1 a2 L1 L2 → layer_sim a1 a2 (f L1) (f L2)) →
  heap_sim h1 h2 →
  outcome_sim (λ _ _ _ _, True) (update_layer l f h1) (update_layer l f h2).
Proof.
  intros Hf Hsim. pose proof (heap_sim_lookup _ _ l Hsim) as Hl.
  unfold update_layer.
  destruct (layers h1 !! l) as [L1|], (layers h2 !! l) as [L2|]; try done.
  split; [|done]. apply heap_sim_insert; [done|]. by apply Hf.
Qed.

Lemma sim_for_each {A} (body : A → Py unit) xs h1 h2 :
  (∀ x h1 h2, heap_sim h1 h2 → outcome_sim (λ _ _ _ _, True) (body x h1) (body x h2)) →
  heap_sim h1 h2 →
  outcome_sim (λ _ _ _ _, True) (for_each xs body h1) (for_each xs body h2).
Proof.
  intros Hbody. revert h1 h2. induction xs as [|x xs IH]; intros h1 h2 Hsim.
  - by split.
  - simpl. eapply sim_bind; [by apply Hbody|]. intros _ _ h1' h2' Hsim' _. by apply IH.
Qed.

Lemma sim_track n l h1 h2 :
  heap_sim h1 h2 →
  outcome_sim (λ _ _ _ _, True) (_track_torch_params n l h1) (_track_torch_params n l h2).
Proof.
  revert l h1 h2. induction n as [|n IH]; intros l h1 h2 Hsim; [done|].
  rewrite track_unfold.
  eapply sim_bind; [apply sim_attr; [|done]; by intros ?? [=]|].
  intros ls ? h1a h2a Hsa <-.
  eapply sim_bind; [by apply sim_for_each|].
  intros _ _ h1b h2b Hsb _.
  eapply sim_bind; [by apply sim_tracked|].
  intros tracked ? h1c h2c Hsc <-. destruct tracked; [by apply sim_ret|].
  eapply sim_bind; [apply sim_attr; [|done]; by intros ?? [=]|].
  intros tv ? h1d h2d Hsd <-.
  eapply sim_bind; [apply sim_attr; [|done]; by intros ?? [=]|].
  intros ntv ? h1e h2e Hse <-. cbv zeta.
  eapply sim_bind; [apply sim_attr; [|done]; by intros ?? [=]|].
  intros sgs ? h1f h2f Hsf <-.
  eapply sim_bind; [by apply sim_new_ParameterList|].
  intros p1 p2 h1g h2g Hsg Hp. by apply sim_setattr.
Qed.

Lemma sim_untrack n l h1 h2 :
  heap_sim h1 h2 →
  outcome_sim (λ _ _ _ _, True)
    (_untrack_torch_params n l h1) (_untrack_torch_params n l h2).
Proof.
  revert l h1 h2. induction n as [|n IH]; intros l h1 h2 Hsim; [done|].
  rewrite untrack_unfold.
  eapply sim_bind; [apply sim_attr; [|done]; by intros ?? [=]|].
  intros ls ? h1a h2a Hsa <-.
  eapply sim_bind; [by apply sim_for_each|].
  intros _ _ h1b h2b Hsb _. by apply sim_delattr.
Qed.

Lemma sim_post_track_variable n l v h1 h2 :
  heap_sim h1 h2 →
  outcome_sim (λ _ _ _ _, True)
    (_post_track_variable n l v h1) (_post_track_variable n l v h2).
Proof.
  intros Hsim. unfold _post_track_variable.
  eapply sim_bind; [by apply sim_tracked|].
  intros tracked ? h1a h2a Hsa <-. destruct tracked; [|by apply sim_ret].
  eapply sim_bind; [by apply sim_untrack|].
  intros _ _ h1b h2b Hsb _. by apply sim_track.
Qed.

Lemma sim_named_parameters n l prefix recurse rd h1 h2 :
  heap_sim h1 h2 →
  outcome_sim same_value
    (named_parameters n l prefix recurse rd h1)
    (named_parameters n l prefix recurse rd h2).
Proof.
  intros Hsim. unfold named_parameters.
  eapply sim_bind; [by apply sim_tracked|].
  intros tracked ? h1a h2a Hsa <-.
  eapply (sim_bind (λ _ _ _ _, True)).
  - destruct tracked; [by apply sim_ret|].
    eapply sim_bind; [apply sim_attr; [|done]; by intros ?? [=]|].
    intros b ? h1b h2b Hsb <-. destruct b; [by apply sim_track|]. by split.
  - intros _ _ h1c h2c Hsc _. by apply sim_ret.
Qed.

Lemma sim_invoke n c h1 h2 :
  heap_sim h1 h2 →
  outcome_sim (λ _ _ _ _, True) (invoke n c h1) (invoke n c h2).
Proof.
  intros Hsim. destruct c as [l|l|l|l v|l v|l v|l v|l prefix recurse rd]; simpl.
  - unfold _post_build. eapply (sim_bind same_value).
    + split; [done|]. by destruct Hsim as (_ & ? & _).
    + intros s ? h1a h2a Hsa <-. destruct s; [by apply sim_ret|by apply sim_track].
  - by apply sim_track.
  - by apply sim_untrack.
  - by apply sim_post_track_variable.
  - rewrite post_untrack_variable_eq. by apply sim_post_track_variable.
  - unfold _track_variable. eapply sim_bind.
    + apply sim_update_layer; [|done]. intros a1 a2 L1 L2 [Hk Hm].
      destruct (trainable v); (split; [|done]);
        injection Hk as ? ? ? ? ?;
        unfold with_modules, with_trainable_variables, with_non_trainable_variables;
        simpl; congruence.
    + intros _ _ h1a h2a Hsa _. by apply sim_post_track_variable.
  - unfold _untrack_variable. eapply sim_bind.
    + apply sim_update_layer; [|done]. intros a1 a2 L1 L2 [Hk Hm].
      split; [|done]. injection Hk as ? ? ? ? ?;
        unfold with_modules, with_trainable_variables, with_non_trainable_variables;
        simpl; congruence.
    + intros _ _ h1a h2a Hsa _. rewrite post_untrack_variable_eq.
      by apply sim_post_track_variable.
  - eapply sim_bind; [by apply sim_named_parameters|].
    intros _ _ h1a h2a Hsa _. by apply sim_ret.
Qed.

(** The native traversal sees no difference between the two stores. *)
Lemma named_members_sim n h1 h2 m1 m2 prefix recurse :
  heap_sim h1 h2 → same_module h1 h2 m1 m2 →
  named_members n h1 m1 prefix recurse = named_members n h2 m2 prefix recurse.
Proof.
  intros Hsim. revert m1 m2 prefix.
  induction n as [|n IH]; intros m1 m2 prefix Hm; [done|].
  unfold same_module, module_sim in Hm. simpl.
  destruct m1 as [l1|p1], m2 as [l2|p2]; try done.
  - subst l2. pose proof (heap_sim_lookup _ _ l1 Hsim) as Hl.
    destruct (layers h1 !! l1) as [L1|], (layers h2 !! l1) as [L2|]; try done.
    simpl. destruct recurse; [|done]. destruct Hl as [_ Hms].
    assert (mapM (λ e : string * Module, named_members n h1 e.2 (qualify prefix e.1) true)
              (_modules L1)
            = mapM (λ e : string * Module, named_members n h2 e.2 (qualify prefix e.1) true)
                (_modules L2)) as ->; [|done].
    induction Hms as [|e1 e2 ms1 ms2 [Hk He] _ IHms]; simpl; [done|].
    by rewrite Hk, (IH _ _ _ He), IHms.
  - destruct (parameter_lists h1 !! p1), (parameter_lists h2 !! p2); try done.
    by subst.
Qed.

Lemma sim_consume n it h1 h2 :
  heap_sim h1 h2 → outcome_sim same_value (consume n it h1) (consume n it h2).
Proof.
  intros Hsim. unfold consume.
  rewrite (named_members_sim n h1 h2 (SubLayer (it_self it)) (SubLayer (it_self it)))
    by done.
  by destruct (named_members n h2 _ _ _).
Qed.

Lemma sim_enumerate n calls root prefix recurse rd h1 h2 :
  heap_sim h1 h2 →
  outcome_sim same_value
    (enumerate n calls root prefix recurse rd h1)
    (enumerate n calls root prefix recurse rd h2).
Proof.
  intros Hsim. unfold enumerate.
  eapply sim_bind; [apply sim_for_each; [|done]; intros; by apply sim_invoke|].
  intros _ _ h1a h2a Hsa _.
  eapply sim_bind; [by apply sim_track|].
  intros _ _ h1b h2b Hsb _.
  eapply sim_bind; [by apply sim_named_parameters|].
  intros it ? h1c h2c Hsc <-. by apply sim_consume.
Qed.

(** C8: two independent runs (stores that hold the same layers, variables and
    handles, and differ only in which [ParameterList] objects exist and what
    their identities are) that make the same calls and then
    [_track_torch_params] and [named_parameters] on the root list the same
    names with the same handles in the same order, or end with the same
    exception. *)
Theorem enumeration_deterministic n calls root prefix recurse rd h1 h2 :
  heap_sim h1 h2 →
  fst <$> enumerate n calls root prefix recurse rd h1
  = fst <$> enumerate n calls root prefix recurse rd h2.
Proof.
  intros Hsim.
  pose proof (sim_enumerate n calls root prefix recurse rd h1 h2 Hsim) as H.
  destruct (enumerate n calls root prefix recurse rd h1) as [[[a1|e1] h1']|],
    (enumerate n calls root prefix recurse rd h2) as [[[a2|e2] h2']|];
    simpl in *; try done.
  - destruct H as [_ ->]. done.
  - destruct H as [-> _]. done.
Qed.

Lemma enumeration_deterministic_witness :
  fst <$> enumerate 3 [Call_post_build 0; Call_track_variable 1 var_w] 0 "" true true
            sample_store
  = fst <$> enumerate 3 [Call_post_build 0; Call_track_variable 1 var_w] 0 "" true true
              sample_store_shifted.
Proof.
  refine (enumeration_deterministic 3 [Call_post_build 0; Call_track_variable 1 var_w]
            0 "" true true sample_store sample_store_shifted _).
  by_evaluation.
Defined.

(** The two runs of the witness do finish, and with different object
    identities. *)
Example enumeration_sample :
  fst <$> enumerate 3 [Call_post_build 0; Call_track_variable 1 var_w] 0 "" true true
            sample_store
  = Some (Return [("dense.torch_params.0", 10); ("dense.torch_params.1", 11);
                  ("dense.torch_params.2", 20); ("dense.torch_params.3", 12);
                  ("dense.torch_params.4", 13)])
  ∧ (r ← enumerate 3 [Call_post_build 0; Call_track_variable 1 var_w] 0 "" true true
           sample_store; torch_params r.2 1) = Some (ParameterList 2)
  ∧ (r ← enumerate 3 [Call_post_build 0; Call_track_variable 1 var_w] 0 "" true true
           sample_store_shifted; torch_params r.2 1) = Some (ParameterList 4).
Proof. split_and!; reflexivity. Qed.

(** ** A layer shared by two parents *)

Example shared_reachable :
  snapshot_free sample_shared = true
  ∧ reachable 3 lifecycle_call sample_shared sample_shared_exposed
  ∧ Forall (tracked sample_shared_exposed) [0; 1; 2].
Proof.
  split_and!; [reflexivity| |by_evaluation].
  apply (reachable_step _ _ _ sample_shared (Call_post_build 0) (Return tt));
    [|exact I|reflexivity].
  apply reachable_init.
Qed.

(** C4: [_untrack_torch_params] at a node without [torch_params] is not a
    no-op but an [AttributeError].  This is so for a bare call on a layer
    without a snapshot, and it is so inside one invalidation of a built model
    whose layer 1 is reached twice: the second visit finds no [torch_params],
    the [del] raises, and the call ends there, with layer 1 stripped and
    layers 0 and 2 still holding theirs. *)
Lemma untrack_missing_snapshot_raises :
  (¬ tracked sample_unbuilt 0
   ∧ _untrack_torch_params 1 0 sample_unbuilt
     = Some (Raise (AttributeError "torch_params"), sample_unbuilt))
  ∧ (Forall (tracked sample_shared_exposed) [0; 1; 2]
     ∧ ∃ h', _untrack_torch_params 3 0 sample_shared_exposed
               = Some (Raise (AttributeError "torch_params"), h')
             ∧ ¬ tracked h' 1 ∧ tracked h' 2 ∧ tracked h' 0).
Proof.
  split; [split; [by_evaluation|reflexivity]|].
  split; [by_evaluation|].
  eexists. split; [reflexivity|]. split_and!; by_evaluation.
Qed.

(** C6: on a built model whose layer 1 is held by two parents, the hook for a
    newly tracked variable on layer 0 (which has a snapshot) does not rebuild:
    the invalidation raises [AttributeError] on its second visit of layer 1,
    [_track_torch_params] is never reached, no parameter list is created, and
    layer 0 keeps its old snapshot, which does not list the new variable. *)
Lemma post_track_variable_shared_sublayer :
  reachable 3 lifecycle_call sample_shared sample_shared_exposed
  ∧ torch_params sample_shared_exposed 0 = Some (ParameterList 2)
  ∧ ∃ h1 h', update_layer 0 (with_trainable_variables [var_w; var_v])
               sample_shared_exposed = Some (Return tt, h1)
           ∧ _post_track_variable 3 0 var_v h1
             = Some (Raise (AttributeError "torch_params"), h')
           ∧ _track_variable 3 0 var_v sample_shared_exposed
             = Some (Raise (AttributeError "torch_params"), h')
           ∧ torch_params h' 0 = Some (ParameterList 2)
           ∧ parameter_lists h' = parameter_lists sample_shared_exposed
           ∧ snapshot h' 0 = Some [20]
           ∧ (exposed_values <$> layers h' !! 0) = Some [20; 21].
Proof.
  split; [apply shared_reachable|]. split; [reflexivity|].
  eexists _, _. split_and!; reflexivity.
Qed.

(** ** More on [_track_torch_params] and [_post_build] *)

(** A run of [_track_torch_params] that ends was on a finite hierarchy. *)
Lemma track_Some_subtree n l h r :
  _track_torch_params n l h = Some r → ∃ ids, subtree n h l = Some ids.
Proof.
  revert l h r. induction n as [|n IH]; intros l h r Hrun; [done|].
  rewrite track_unfold, run_bind in Hrun. unfold attr at 1 in Hrun.
  destruct (layers h !! l) as [L|] eqn:HL; [|done].
  rewrite run_bind in Hrun.
  destruct (for_each (_layers L) (_track_torch_params n) h) as [r1|] eqn:Hloop; [|done].
  assert (∃ below, Forall2 (λ c cids, subtree n h c = Some cids) (_layers L) below)
    as [below Hb].
  { clear Hrun HL. revert h r1 Hloop.
    induction (_layers L) as [|c cs IHcs]; intros h r1 Hloop; [by exists []|].
    simpl in Hloop. rewrite run_bind in Hloop.
    destruct (_track_torch_params n c h) as [r0|] eqn:Hc; [|done].
    destruct (IH _ _ _ Hc) as [cids Hsub].
    destruct (track_spec _ _ _ _ Hsub) as (h1 & Hrun1 & Hpost1).
    rewrite Hrun1 in Hc. injection Hc as <-.
    destruct (IHcs _ _ Hloop) as [below Hb].
    exists (cids :: below). constructor; [done|].
    eapply Forall2_impl; [exact Hb|]. intros c' cids' Hc'. simpl in Hc'.
    by rewrite <-(subtree_skeleton _ _ _ _ (track_post_skeleton _ _ _ Hpost1)). }
  exists (l :: mjoin below). apply subtree_unfold. by exists L, below.
Qed.

(** X6: outside a stateless scope, [_post_build] on a finite hierarchy
    (layers held by several parents included) returns with every layer below
    holding [torch_params].  A layer that already had one keeps it as it
    is; a layer that had none gets a parameter list that did not exist
    before, with the handles it owns; no existing parameter list, variable
    list or tensor changes, and no layer outside the hierarchy is touched. *)
Theorem post_build_exposes_hierarchy n h l ids :
  stateless_scope h = false →
  subtree n h l = Some ids →
  ∃ h', _post_build n l h = Some (Return tt, h')
        ∧ Forall (tracked h') ids
        ∧ keras_side h' = keras_side h
        ∧ tensors h' = tensors h
        ∧ (∀ p hs, parameter_lists h !! p = Some hs → parameter_lists h' !! p = Some hs)
        ∧ (∀ x, tracked h x → layers h' !! x = layers h !! x)
        ∧ (∀ x, x ∉ ids → layers h' !! x = layers h !! x)
        ∧ (∀ x L, x ∈ ids → layers h !! x = Some L → ¬ tracked_layer L →
             ∃ p, torch_params h' x = Some (ParameterList p)
                  ∧ parameter_lists h !! p = None
                  ∧ snapshot h' x = Some (exposed_values L)).
Proof.
  intros Hs Hsub. rewrite post_build_stateful by done.
  destruct (track_spec _ _ _ _ Hsub) as (h' & Hrun & Hpost).
  pose proof Hpost as (Ht & _ & _ & Hl & Hin).
  exists h'. split_and!; try done.
  - by apply Forall_forall.
  - by eapply track_post_keras_side.
  - intros p hs. by eapply track_post_parameter_lists.
  - intros x (L & HL & Htr).
    destruct (Hl x) as [Hsame|(_ & L0 & p & HL0 & Hn & _)]; [done|]. congruence.
  - intros x Hx. destruct (Hl x) as [Hsame|(Hx' & _)]; done.
  - intros x L Hx HL Hn.
    destruct (Hl x) as [Hsame|(_ & L0 & p & HL0 & _ & HL' & Hlen & Hp)].
    + destruct (Hin x Hx) as (L' & HL' & Htr). rewrite Hsame, HL in HL'.
      injection HL' as <-. done.
    + assert (L0 = L) as -> by congruence. exists p. split_and!.
      * unfold torch_params. rewrite HL'. simpl. apply Registry_get_set_eq.
      * by apply lookup_ge_None.
      * by eapply snapshot_expose.
Qed.

Lemma post_build_exposes_hierarchy_witness :
  ∃ h', _post_build 3 0 sample_shared = Some (Return tt, h')
        ∧ Forall (tracked h') [0; 1; 2; 1]
        ∧ keras_side h' = keras_side sample_shared
        ∧ tensors h' = tensors sample_shared
        ∧ (∀ p hs, parameter_lists sample_shared !! p = Some hs →
                   parameter_lists h' !! p = Some hs)
        ∧ (∀ x, tracked sample_shared x → layers h' !! x = layers sample_shared !! x)
        ∧ (∀ x, x ∉ [0; 1; 2; 1] → layers h' !! x = layers sample_shared !! x)
        ∧ (∀ x L, x ∈ [0; 1; 2; 1] → layers sample_shared !! x = Some L →
             ¬ tracked_layer L →
             ∃ p, torch_params h' x = Some (ParameterList p)
                  ∧ parameter_lists sample_shared !! p = None
                  ∧ snapshot h' x = Some (exposed_values L)).
Proof. exact (post_build_exposes_hierarchy 3 sample_shared 0 [0; 1; 2; 1] eq_refl eq_refl). Defined.

(** ** More on [_untrack_torch_params] *)

Lemma untrack_post_untracked h h' ids x :
  untrack_post h h' ids → x ∈ ids → ¬ tracked h' x.
Proof.
  intros (_ & _ & _ & _ & Hin) Hx (L' & HL' & Ht).
  destruct (Hin x Hx) as (L & _ & HL2). rewrite HL' in HL2. injection HL2 as ->.
  by apply tracked_layer_unexpose in Ht.
Qed.

Lemma untrack_children_return_inv n cs :
  (∀ l h ids h', subtree n h l = Some ids →
     _untrack_torch_params n l h = Some (Return tt, h') →
     NoDup ids ∧ ∀ x, x ∈ ids → tracked h x) →
  ∀ h below h',
    Forall2 (λ c cids, subtree n h c = Some cids) cs below →
    for_each cs (_untrack_torch_params n) h = Some (Return tt, h') →
    NoDup (mjoin below) ∧ (∀ x, x ∈ mjoin below → tracked h x)
    ∧ untrack_post h h' (mjoin below).
Proof.
  intros IHn. induction cs as [|c cs IH]; intros h below h' Hb Hrun.
  - apply Forall2_nil_inv_l in Hb as ->. injection Hrun as <-.
    split_and!; [constructor| |apply untrack_post_nil].
    intros x Hx. by apply elem_of_nil in Hx.
  - apply Forall2_cons_inv_l in Hb as (cids & below' & Hc & Hb & ->).
    simpl in Hrun. rewrite run_bind in Hrun.
    destruct (_untrack_torch_params n c h) as [[[[]|e] h1]|] eqn:Hrun1; [|done|done].
    destruct (IHn _ _ _ _ Hc Hrun1) as [Hnd1 Hall1].
    destruct (untrack_spec _ _ _ _ Hc Hnd1 Hall1) as (h1' & Hrun1' & Hpost1).
    rewrite Hrun1 in Hrun1'. injection Hrun1' as <-.
    assert (untrack_frame h h1) as Hfr1 by (by eapply untrack_post_frame).
    assert (Forall2 (λ c cids, subtree n h1 c = Some cids) cs below') as Hb1.
    { eapply Forall2_impl; [exact Hb|]. intros c' cids' Hc'. simpl in Hc'.
      by rewrite (subtree_skeleton _ _ _ _ (untrack_frame_skeleton _ _ Hfr1)). }
    destruct (IH _ _ _ Hb1 Hrun) as (Hnd2 & Hall2 & Hpost2).
    assert (∀ x, x ∈ cids → x ∉ mjoin below') as Hdisj.
    { intros x Hx Hx'. by apply (untrack_post_untracked _ _ _ x Hpost1 Hx), Hall2. }
    simpl. split_and!.
    + apply NoDup_app. by split_and!.
    + intros x [Hx|Hx]%elem_of_app; [auto|].
      eapply untrack_frame_tracked; [exact Hfr1|auto].
    + by eapply untrack_post_trans.
Qed.

(** A run of [_untrack_torch_params] that returns was on a tree whose layers
    all had [torch_params]. *)
Lemma untrack_return_inv n l h ids h' :
  subtree n h l = Some ids →
  _untrack_torch_params n l h = Some (Return tt, h') →
  NoDup ids ∧ ∀ x, x ∈ ids → tracked h x.
Proof.
  revert l h ids h'. induction n as [|n IH]; intros l h ids h' Hsub Hrun; [done|].
  apply subtree_unfold in Hsub as (L & below & HL & Hb & ->).
  rewrite untrack_unfold, (run_bind_Return _ _ _ _ _ (run_attr _ _ _ _ HL)) in Hrun.
  rewrite run_bind in Hrun.
  destruct (for_each (_layers L) (_untrack_torch_params n) h)
    as [[[[]|e] h1]|] eqn:Hloop; [|done|done].
  destruct (untrack_children_return_inv n (_layers L) IH _ _ _ Hb Hloop)
    as (Hnd & Hall & Hpost).
  assert (untrack_frame h h1) as Hfr by (by eapply untrack_post_frame).
  assert (tracked h1 l) as Ht1.
  { unfold delattr in Hrun. rewrite run_bind in Hrun. unfold attr in Hrun.
    destruct (layers h1 !! l) as [L1|] eqn:HL1; [|done].
    destruct (Registry.get "torch_params" (_modules L1)) as [m|] eqn:Hm; [|done].
    exists L1. split; [done|]. by exists m. }
  split.
  - apply NoDup_cons. split; [|done].
    intros Hl. by apply (untrack_post_untracked _ _ _ l Hpost Hl).
  - intros x [->|Hx]%elem_of_cons; [|auto].
    by eapply untrack_frame_tracked.
Qed.

(** X7: on a finite hierarchy [_untrack_torch_params] returns exactly when
    the hierarchy below the layer is a tree (no layer is reached twice) and
    every layer of it has [torch_params]; it then removes [torch_params] from
    exactly these layers. *)
Theorem untrack_torch_params_returns_iff n h l ids :
  subtree n h l = Some ids →
  ((∃ h', _untrack_torch_params n l h = Some (Return tt, h'))
     ↔ NoDup ids ∧ Forall (tracked h) ids)
  ∧ (∀ h', _untrack_torch_params n l h = Some (Return tt, h') →
       Forall (λ x, ¬ tracked h' x) ids
       ∧ ∀ x, x ∉ ids → layers h' !! x = layers h !! x).
Proof.
  intros Hsub. split.
  - split.
    + intros (h' & Hrun). destruct (untrack_return_inv _ _ _ _ _ Hsub Hrun) as [Hnd Hall].
      split; [done|]. by apply Forall_forall.
    + intros [Hnd Hall]. rewrite Forall_forall in Hall.
      destruct (untrack_spec _ _ _ _ Hsub Hnd Hall) as (h' & Hrun & _). eauto.
  - intros h' Hrun.
    destruct (untrack_return_inv _ _ _ _ _ Hsub Hrun) as [Hnd Hall].
    destruct (untrack_spec _ _ _ _ Hsub Hnd Hall) as (h2 & Hrun2 & Hpost).
    rewrite Hrun in Hrun2. injection Hrun2 as <-. split.
    + apply Forall_forall. intros x Hx. by eapply untrack_post_untracked.
    + by destruct Hpost as (_ & _ & _ & Hout & _).
Qed.

Lemma untrack_torch_params_returns_iff_witness :
  ((∃ h', _untrack_torch_params 3 0 sample_shared_exposed = Some (Return tt, h'))
     ↔ NoDup [0; 1; 2; 1] ∧ Forall (tracked sample_shared_exposed) [0; 1; 2; 1])
  ∧ (∀ h', _untrack_torch_params 3 0 sample_shared_exposed = Some (Return tt, h') →
       Forall (λ x, ¬ tracked h' x) [0; 1; 2; 1]
       ∧ ∀ x, x ∉ [0; 1; 2; 1] →
              layers h' !! x = layers sample_shared_exposed !! x).
Proof.
  exact (untrack_torch_params_returns_iff 3 sample_shared_exposed 0 [0; 1; 2; 1] eq_refl).
Defined.

Lemma untrack_outside n l h ids o h' :
  subtree n h l = Some ids →
  _untrack_torch_params n l h = Some (o, h') →
  ∀ x, x ∉ ids → layers h' !! x = layers h !! x.
Proof.
  revert l h ids o h'. induction n as [|n IH]; intros l h ids o h' Hsub Hrun; [done|].
  apply subtree_unfold in Hsub as (L & below & HL & Hb & ->).
  rewrite untrack_unfold, (run_bind_Return _ _ _ _ _ (run_attr _ _ _ _ HL)) in Hrun.
  rewrite run_bind in Hrun.
  assert (∀ cs h below o1 h1,
            Forall2 (λ c cids, subtree n h c = Some cids) cs below →
            for_each cs (_untrack_torch_params n) h = Some (o1, h1) →
            ∀ x, x ∉ mjoin below → layers h1 !! x = layers h !! x) as Hloop.
  { clear -IH. induction cs as [|c cs IHcs]; intros h below o1 h1 Hb Hrun x Hx.
    - by injection Hrun as _ <-.
    - apply Forall2_cons_inv_l in Hb as (cids & below' & Hc & Hb & ->).
      simpl in Hrun, Hx. rewrite run_bind in Hrun. rewrite elem_of_app in Hx.
      destruct (_untrack_torch_params n c h) as [[o0 h0]|] eqn:Hrun0; [|done].
      pose proof (IH _ _ _ _ _ Hc Hrun0 x) as Hx0.
      destruct (untrack_total _ _ _ _ Hc) as (o0' & h0' & Hrun0' & _ & Hfr).
      rewrite Hrun0 in Hrun0'. injection Hrun0' as <- <-.
      assert (x ∉ cids) as Hx1 by tauto.
      assert (x ∉ mjoin below') as Hx2 by tauto.
      destruct o0 as [[]|e].
      + assert (Forall2 (λ c cids, subtree n h0 c = Some cids) cs below') as Hb0.
        { eapply Forall2_impl; [exact Hb|]. intros c' cids' Hc'. simpl in Hc'.
          by rewrite (subtree_skeleton _ _ _ _ (untrack_frame_skeleton _ _ Hfr)). }
        rewrite (IHcs h0 below' o1 h1 Hb0 Hrun x Hx2). by apply Hx0.
      + injection Hrun as _ <-. by apply Hx0. }
  intros x Hx. rewrite elem_of_cons in Hx.
  assert (l ≠ x) as Hne by (intros ->; tauto).
  assert (x ∉ mjoin below) as Hx' by tauto.
  destruct (for_each (_layers L) (_untrack_torch_params n) h)
    as [[[[]|e] h1]|] eqn:Hl; [| |done].
  - pose proof (Hloop _ _ _ _ _ Hb Hl x Hx') as Hx1.
    unfold delattr in Hrun. rewrite run_bind in Hrun. unfold attr in Hrun.
    destruct (layers h1 !! l) as [L1|] eqn:HL1; [|done].
    destruct (Registry.get "torch_params" (_modules L1)).
    + unfold update_modules in Hrun. rewrite HL1 in Hrun. injection Hrun as _ <-.
      simpl. by rewrite lookup_insert_ne.
    + by injection Hrun as _ <-.
  - injection Hrun as _ <-. by eapply Hloop.
Qed.

(** X8: on a finite hierarchy [_untrack_torch_params] always ends, with a
    return or with the [AttributeError] for [torch_params] and nothing else;
    whichever way it ends, all it has done is remove [torch_params] from
    layers below: it adds none, leaves the layers outside the hierarchy, the
    variable lists, the parameter-list objects and the tensors as they were. *)
Theorem untrack_torch_params_only_removes n h l ids :
  subtree n h l = Some ids →
  ∃ o h', _untrack_torch_params n l h = Some (o, h')
          ∧ (o = Return tt ∨ o = Raise (AttributeError "torch_params"))
          ∧ keras_side h' = keras_side h
          ∧ tensors h' = tensors h
          ∧ parameter_lists h' = parameter_lists h
          ∧ (∀ x, tracked h' x → tracked h x ∧ layers h' !! x = layers h !! x)
          ∧ (∀ x, x ∉ ids → layers h' !! x = layers h !! x).
Proof.
  intros Hsub.
  destruct (untrack_total _ _ _ _ Hsub) as (o & h' & Hrun & Ho & Hfr).
  exists o, h'. split_and!; try done.
  - by apply untrack_frame_keras_side.
  - by destruct Hfr as (? & _).
  - by destruct Hfr as (_ & _ & ? & _).
  - intros x Ht. split; [by eapply untrack_frame_tracked|].
    destruct Hfr as (_ & _ & _ & Hl).
    destruct (Hl x) as [Hsame|(L & HL & _ & HL')]; [done|].
    destruct Ht as (L' & HL2 & Ht). rewrite HL' in HL2. injection HL2 as <-.
    by apply tracked_layer_unexpose in Ht.
  - by eapply untrack_outside.
Qed.

Lemma untrack_torch_params_only_removes_witness :
  ∃ o h', _untrack_torch_params 3 0 sample_shared_exposed = Some (o, h')
          ∧ (o = Return tt ∨ o = Raise (AttributeError "torch_params"))
          ∧ keras_side h' = keras_side sample_shared_exposed
          ∧ tensors h' = tensors sample_shared_exposed
          ∧ parameter_lists h' = parameter_lists sample_shared_exposed
          ∧ (∀ x, tracked h' x →
                  tracked sample_shared_exposed x
                  ∧ layers h' !! x = layers sample_shared_exposed !! x)
          ∧ (∀ x, x ∉ [0; 1; 2; 1] →
                  layers h' !! x = layers sample_shared_exposed !! x).
Proof.
  exact (untrack_torch_params_only_removes 3 sample_shared_exposed 0 [0; 1; 2; 1] eq_refl).
Defined.

(** ** More on the variable hooks *)

(** X9: on a tree whose layers all have [torch_params],
    [_post_track_variable] rebuilds the whole hierarchy below the layer and
    nothing else: every layer below gets a parameter list that did not exist
    before, with the handles it owns; the layers outside are untouched; the
    same layers have [torch_params] before and after; no existing parameter
    list, variable list or tensor changes.  [_post_untrack_variable] does the
    same. *)
Theorem post_track_variable_rebuilds_hierarchy n h l ids v :
  subtree n h l = Some ids → NoDup ids → Forall (tracked h) ids →
  ∃ h', _post_track_variable n l v h = Some (Return tt, h')
        ∧ _post_untrack_variable n l v h = Some (Return tt, h')
        ∧ (∀ x, tracked h' x ↔ tracked h x)
        ∧ (∀ x, x ∉ ids → layers h' !! x = layers h !! x)
        ∧ (∀ x L, x ∈ ids → layers h !! x = Some L →
             ∃ p, torch_params h' x = Some (ParameterList p)
                  ∧ parameter_lists h !! p = None
                  ∧ snapshot h' x = Some (exposed_values L))
        ∧ keras_side h' = keras_side h
        ∧ tensors h' = tensors h
        ∧ (∀ p hs, parameter_lists h !! p = Some hs → parameter_lists h' !! p = Some hs).
Proof.
  intros Hsub Hnd Hall. rewrite Forall_forall in Hall.
  destruct (rebuild_spec _ _ _ _ Hsub Hnd Hall)
    as (h1 & h2 & Hrun1 & Hrun2 & Hpost1 & Hpost2).
  assert (_post_track_variable n l v h = Some (Return tt, h2)) as Hrun.
  { destruct (Hall l (subtree_root _ _ _ _ Hsub)) as (L & HL & Ht).
    unfold _post_track_variable.
    rewrite (run_bind_Return _ _ _ _ _ (run_tracked _ _ _ HL)).
    rewrite (bool_decide_eq_true_2 _ Ht).
    by rewrite (run_bind_Return _ _ _ _ _ Hrun1). }
  assert (untrack_frame h h1) as Hfr by (by eapply untrack_post_frame).
  exists h2. split_and!; try done.
  - by eapply rebuild_tracked.
  - intros x Hx.
    destruct Hpost1 as (_ & _ & _ & Hout1 & _), Hpost2 as (_ & _ & _ & Hl2 & _).
    destruct (Hl2 x) as [Hsame|(Hx' & _)]; [|done]. by rewrite Hsame, Hout1.
  - intros x L Hx HL.
    destruct (rebuild_layer _ _ _ _ x L Hpost1 Hpost2 Hx HL) as (p & HL2 & Hlen & Hp).
    exists p. split_and!.
    + unfold torch_params. rewrite HL2. simpl. apply Registry_get_set_eq.
    + by apply lookup_ge_None.
    + by eapply snapshot_expose.
  - rewrite (track_post_keras_side _ _ _ Hpost2). by apply untrack_frame_keras_side.
  - destruct Hpost2 as (-> & _), Hfr as (-> & _). done.
  - intros p hs Hp. eapply track_post_parameter_lists; [exact Hpost2|].
    destruct Hpost1 as (_ & _ & -> & _). done.
Qed.

Lemma post_track_variable_rebuilds_hierarchy_witness :
  ∃ h', _post_track_variable 2 0 var_w sample_exposed = Some (Return tt, h')
        ∧ _post_untrack_variable 2 0 var_w sample_exposed = Some (Return tt, h')
        ∧ (∀ x, tracked h' x ↔ tracked sample_exposed x)
        ∧ (∀ x, x ∉ [0; 1] → layers h' !! x = layers sample_exposed !! x)
        ∧ (∀ x L, x ∈ [0; 1] → layers sample_exposed !! x = Some L →
             ∃ p, torch_params h' x = Some (ParameterList p)
                  ∧ parameter_lists sample_exposed !! p = None
                  ∧ snapshot h' x = Some (exposed_values L))
        ∧ keras_side h' = keras_side sample_exposed
        ∧ tensors h' = tensors sample_exposed
        ∧ (∀ p hs, parameter_lists sample_exposed !! p = Some hs →
                   parameter_lists h' !! p = Some hs).
Proof.
  refine (post_track_variable_rebuilds_hierarchy 2 sample_exposed 0 [0; 1] var_w
            eq_refl _ _); by_evaluation.
Defined.

Lemma post_track_variable_outcomes n h l ids L v :
  subtree n h l = Some ids →
  layers h !! l = Some L →
  ((∃ h', _post_track_variable n l v h = Some (Return tt, h'))
     ↔ ¬ tracked_layer L ∨ (NoDup ids ∧ Forall (tracked h) ids))
  ∧ ((∃ h', _post_track_variable n l v h
              = Some (Raise (AttributeError "torch_params"), h'))
     ↔ tracked_layer L ∧ ¬ (NoDup ids ∧ Forall (tracked h) ids))
  ∧ (∀ e h', _post_track_variable n l v h = Some (Raise e, h') →
       e = AttributeError "torch_params").
Proof.
  intros Hsub HL.
  destruct (decide (tracked_layer L)) as [Ht|Hn].
  2:{ pose proof (post_track_variable_untracked n l v h L HL Hn) as Hrun.
      rewrite Hrun. split_and!; [|split|].
      - split; [by left|eauto].
      - by intros (h' & [=]).
      - by intros [? _].
      - by intros e h' [=]. }
  assert (_post_track_variable n l v h
          = (_untrack_torch_params n l;; _track_torch_params n l) h) as Heq.
  { unfold _post_track_variable.
    rewrite (run_bind_Return _ _ _ _ _ (run_tracked _ _ _ HL)).
    by rewrite (bool_decide_eq_true_2 _ Ht). }
  rewrite Heq.
  destruct (untrack_total _ _ _ _ Hsub) as (o & h1 & Hrun1 & Ho & Hfr).
  destruct (decide (NoDup ids ∧ Forall (tracked h) ids)) as [[Hnd Hall]|Hbad].
  - rewrite Forall_forall in Hall.
    destruct (rebuild_spec _ _ _ _ Hsub Hnd Hall) as (h1' & h2 & Hr1 & Hr2 & _).
    rewrite (run_bind_Return _ _ _ _ _ Hr1), Hr2.
    split_and!; [|split|].
    + split; [right; split; [done|by apply Forall_forall]|eauto].
    + by intros (h' & [=]).
    + intros [_ Hbad]. destruct Hbad. split; [done|by apply Forall_forall].
    + by intros e h' [=].
  - destruct Ho as [-> | ->].
    { destruct (untrack_return_inv _ _ _ _ _ Hsub Hrun1) as [Hnd Hall].
      destruct Hbad. split; [done|by apply Forall_forall]. }
    rewrite (run_bind_Raise _ _ _ _ _ Hrun1).
    split_and!; [|split|].
    + split; [by intros (h' & [=])|]. by intros [?|?].
    + by intros _.
    + eauto.
    + by intros e h' [= <- _].
Qed.

(** X10: on a finite hierarchy, [_post_track_variable] (and
    [_post_untrack_variable]) returns exactly when the layer has no
    [torch_params], or the hierarchy below it is a tree whose layers all have
    [torch_params]; in every other case it ends with the [AttributeError] for
    [torch_params], and it never ends with any other exception. *)
Theorem post_track_variable_returns_iff n h l ids L v :
  subtree n h l = Some ids →
  layers h !! l = Some L →
  ((∃ h', _post_track_variable n l v h = Some (Return tt, h'))
     ↔ ¬ tracked_layer L ∨ (NoDup ids ∧ Forall (tracked h) ids))
  ∧ ((∃ h', _post_track_variable n l v h
              = Some (Raise (AttributeError "torch_params"), h'))
     ↔ tracked_layer L ∧ ¬ (NoDup ids ∧ Forall (tracked h) ids))
  ∧ (∀ e h', _post_track_variable n l v h = Some (Raise e, h') →
       e = AttributeError "torch_params")
  ∧ _post_untrack_variable n l v h = _post_track_variable n l v h.
Proof.
  intros Hsub HL.
  destruct (post_track_variable_outcomes n h l ids L v Hsub HL) as (H1 & H2 & H3).
  by split_and!.
Qed.

Lemma post_track_variable_returns_iff_witness :
  ((∃ h', _post_track_variable 3 0 var_v sample_shared_exposed = Some (Return tt, h'))
     ↔ ¬ tracked_layer
           (mkLayer [1; 2] [var_w] [] [] true
              [("shared", SubLayer 1); ("head", SubLayer 2);
               ("torch_params", ParameterList 2)])
       ∨ (NoDup [0; 1; 2; 1] ∧ Forall (tracked sample_shared_exposed) [0; 1; 2; 1]))
  ∧ ((∃ h', _post_track_variable 3 0 var_v sample_shared_exposed
              = Some (Raise (AttributeError "torch_params"), h'))
     ↔ tracked_layer
         (mkLayer [1; 2] [var_w] [] [] true
            [("shared", SubLayer 1); ("head", SubLayer 2);
             ("torch_params", ParameterList 2)])
       ∧ ¬ (NoDup [0; 1; 2; 1] ∧ Forall (tracked sample_shared_exposed) [0; 1; 2; 1]))
  ∧ (∀ e h', _post_track_variable 3 0 var_v sample_shared_exposed = Some (Raise e, h') →
       e = AttributeError "torch_params")
  ∧ _post_untrack_variable 3 0 var_v sample_shared_exposed
    = _post_track_variable 3 0 var_v sample_shared_exposed.
Proof.
  exact (post_track_variable_returns_iff 3 sample_shared_exposed 0 [0; 1; 2; 1]
           (mkLayer [1; 2] [var_w] [] [] true
              [("shared", SubLayer 1); ("head", SubLayer 2);
               ("torch_params", ParameterList 2)])
           var_v eq_refl eq_refl).
Defined.

(** ** More on [named_parameters] *)

(** X11: when [named_parameters] returns, the layer holds [torch_params], the
    variable lists and the tensors are what they were, and a second call with
    the same arguments returns the same iterator without changing anything:
    the lazy build happens at most once. *)
Theorem named_parameters_returns_exposed n h l prefix recurse rd it h' :
  named_parameters n l prefix recurse rd h = Some (Return it, h') →
  it = the_iterator l prefix recurse rd
  ∧ tracked h' l
  ∧ keras_side h' = keras_side h
  ∧ tensors h' = tensors h
  ∧ (∀ x, tracked h x → layers h' !! x = layers h !! x)
  ∧ named_parameters n l prefix recurse rd h' = Some (Return it, h').
Proof.
  intros Hrun.
  destruct (layers h !! l) as [L|] eqn:HL.
  2:{ unfold named_parameters in Hrun. rewrite run_bind in Hrun.
      unfold _torch_params_tracked, hasattr in Hrun.
      rewrite run_bind in Hrun. unfold attr at 1 in Hrun. by rewrite HL in Hrun. }
  destruct (decide (tracked_layer L)) as [Ht|Hn].
  { rewrite (named_parameters_tracked _ _ _ _ _ _ _ HL Ht) in Hrun.
    injection Hrun as <- <-. split_and!; try done.
    - by exists L.
    - by apply named_parameters_tracked with L. }
  destruct (built L) eqn:Hb.
  2:{ by rewrite (named_parameters_not_built _ _ _ _ _ _ _ HL Hn Hb) in Hrun. }
  rewrite (named_parameters_lazy _ _ _ _ _ _ _ HL Hn Hb) in Hrun.
  destruct (_track_torch_params n l h) as [[[[]|e] h1]|] eqn:Htr; [|done|done].
  injection Hrun as <- <-.
  destruct (track_Some_subtree _ _ _ _ Htr) as [ids Hsub].
  destruct (track_spec _ _ _ _ Hsub) as (h2 & Hrun2 & Hpost).
  rewrite Htr in Hrun2. injection Hrun2 as <-.
  pose proof Hpost as (Hten & _ & _ & Hl & Hin).
  destruct (Hin l (subtree_root _ _ _ _ Hsub)) as (L1 & HL1 & Ht1).
  split_and!; try done.
  - by exists L1.
  - by eapply track_post_keras_side.
  - intros x (Lx & HLx & Htx).
    destruct (Hl x) as [Hsame|(_ & L0 & p & HL0 & Hn0 & _)]; [done|]. congruence.
  - by apply named_parameters_tracked with L1.
Qed.

Lemma named_parameters_returns_exposed_witness :
  the_iterator 0 "" true true = the_iterator 0 "" true true
  ∧ tracked sample_exposed 0
  ∧ keras_side sample_exposed = keras_side sample_store
  ∧ tensors sample_exposed = tensors sample_store
  ∧ (∀ x, tracked sample_store x → layers sample_exposed !! x = layers sample_store !! x)
  ∧ named_parameters 2 0 "" true true sample_exposed
    = Some (Return (the_iterator 0 "" true true), sample_exposed).
Proof.
  exact (named_parameters_returns_exposed 2 sample_store 0 "" true true
           (the_iterator 0 "" true true) sample_exposed eq_refl).
Defined.

(** ** More on the attribute-assignment hook *)

(** X12: passing the result of [_setattr_hook] through the hook again
    changes nothing: a value is wrapped at most once. *)
Theorem setattr_hook_idempotent self name value :
  _setattr_hook self (_setattr_hook self name value).1 (_setattr_hook self name value).2
  = _setattr_hook self name value.
Proof.
  rewrite (setattr_hook_eq self name value). simpl.
  destruct (hook_wraps self name value) eqn:Hw; rewrite setattr_hook_eq.
  - by replace (hook_wraps self name (TorchModuleWrapper value)) with false.
  - by rewrite Hw.
Qed.

(** X13: on a layer that is no [TorchModuleWrapper], whatever torch module
    comes out of the hook for an attribute other than [torch_params] is a
    Keras layer; and the hook never turns a value that is no torch module
    into one, nor the other way round. *)
Theorem setattr_hook_modules_are_layers self name value :
  isinstance_TorchModuleWrapper self = false →
  name ≠ "torch_params" →
  isinstance_Module (_setattr_hook self name value).2 = isinstance_Module value
  ∧ (isinstance_Module (_setattr_hook self name value).2 = true →
     isinstance_Layer (_setattr_hook self name value).2 = true).
Proof.
  intros Hself Hname. rewrite setattr_hook_eq. simpl.
  destruct (hook_wraps self name value) eqn:Hw.
  - apply hook_wraps_spec in Hw as (Hm & _). by rewrite Hm.
  - split; [done|]. intros Hm. destruct (isinstance_Layer value) eqn:Hl; [done|].
    assert (hook_wraps self name value = true) as Hw'; [|congruence].
    by apply hook_wraps_spec.
Qed.

Lemma setattr_hook_modules_are_layers_witness :
  isinstance_Module (_setattr_hook (KerasLayer 0) "encoder" (TorchModule 7)).2
  = isinstance_Module (TorchModule 7)
  ∧ (isinstance_Module (_setattr_hook (KerasLayer 0) "encoder" (TorchModule 7)).2 = true →
     isinstance_Layer (_setattr_hook (KerasLayer 0) "encoder" (TorchModule 7)).2 = true).
Proof.
  refine (setattr_hook_modules_are_layers (KerasLayer 0) "encoder" (TorchModule 7)
            eq_refl _).
  by_evaluation.
Defined.
